(** * esper: the [World] of src/esper/world.py, embedded and verified

    The Python class [World] keeps four attributes:
    - [_processors]     : a list of processor instances,
    - [_next_entity_id] : an int,
    - [_components]     : a dict  component type -> set of entities,
    - [_entities]       : a dict  entity -> dict (component type -> instance).

    Python ints are [Z]; dicts are [gmap]; sets are [gset]; the component
    type of an instance ([type(component_instance)]) is the name of its
    class.  A method that can leave through an exception returns, next to
    the state it leaves behind, what it raised.  The two generator methods
    are modelled by a full consumption ([list(world.get_components(...))]):
    what they yield, what they raise, and the state they leave. *)

From Stdlib Require Import ZArith Lia.
From stdpp Require Import gmap strings list fin_maps sorting.

Local Open Scope Z_scope.
#[local] Set Warnings "-clear-no-such-hyp".

(** ** Data model *)

Abbreviation EntityId := Z (only parsing).
Abbreviation ComponentType := string (only parsing).

(** A reference to a processor instance. *)
Abbreviation ProcessorRef := nat (only parsing).

(** A component instance: its class and its payload. *)
Record Component := mkComponent {
  component_class : ComponentType;
  component_data : Z
}.

#[global] Instance Component_eq_dec : EqDecision Component.
Proof. solve_decision. Defined.

(** The exceptions the methods can raise. *)
Inductive exn := KeyError | IndexError.

#[global] Instance exn_eq_dec : EqDecision exn.
Proof. solve_decision. Defined.

(** The entity and component database of a [World]. *)
Record World := mkWorld {
  _processors : list ProcessorRef;
  _next_entity_id : Z;
  _components : gmap ComponentType (gset EntityId);
  _entities : gmap EntityId (gmap ComponentType Component)
}.

(** [World.__init__] *)
Definition new_world : World :=
  {| _processors := []; _next_entity_id := 0;
     _components := ∅; _entities := ∅ |}.

Definition set_components (cs : gmap ComponentType (gset EntityId)) (w : World) : World :=
  {| _processors := _processors w; _next_entity_id := _next_entity_id w;
     _components := cs; _entities := _entities w |}.

Definition set_entities (es : gmap EntityId (gmap ComponentType Component)) (w : World) : World :=
  {| _processors := _processors w; _next_entity_id := _next_entity_id w;
     _components := _components w; _entities := es |}.

Definition set_processors (ps : list ProcessorRef) (w : World) : World :=
  {| _processors := ps; _next_entity_id := _next_entity_id w;
     _components := _components w; _entities := _entities w |}.

(** ** Entity and component storage *)

(** [clear_database]: both dicts are cleared, the counter is reset. *)
Definition clear_database (w : World) : World :=
  {| _processors := _processors w; _next_entity_id := 0;
     _components := ∅; _entities := ∅ |}.

(** [create_entity]: [self._next_entity_id += 1; return self._next_entity_id]. *)
Definition create_entity (w : World) : World * EntityId :=
  let n := _next_entity_id w + 1 in
  ({| _processors := _processors w; _next_entity_id := n;
      _components := _components w; _entities := _entities w |}, n).

(** [s.discard(entity)] followed by [if not s: del d[component_type]]. *)
Definition discard_and_prune (entity : EntityId) (component_type : ComponentType)
    (s : gset EntityId) (cs : gmap ComponentType (gset EntityId)) : gmap ComponentType (gset EntityId) :=
  let s' := s ∖ {[entity]} in
  if decide (s' = ∅) then delete component_type cs
  else <[component_type := s']> cs.

(** The loop of [delete_entity] over the component types of the entity:
    [self._components[component_type]] raises [KeyError] when the type has
    no entry, and the loop is left with what was done so far. *)
Fixpoint delete_entity_loop (entity : EntityId) (cts : list ComponentType)
    (cs : gmap ComponentType (gset EntityId)) : gmap ComponentType (gset EntityId) * option exn :=
  match cts with
  | [] => (cs, None)
  | component_type :: rest =>
      match cs !! component_type with
      | None => (cs, Some KeyError)
      | Some s =>
          delete_entity_loop entity rest (discard_and_prune entity component_type s cs)
      end
  end.

(** The keys of [self._entities.get(entity, [])], in the order of the
    map's keys.  A Python dict yields its keys in the order of their
    insertion (an arbitrary order before Python 3.7).  The order shows
    only when the loop raises part-way, in what has been discarded by
    then; [delete_entity_visiting] below takes the order as an argument,
    and the results on [delete_entity] are proved for every order. *)
Definition entity_component_types (entity : EntityId) (w : World) : list ComponentType :=
  match _entities w !! entity with
  | Some m => (map_to_list m).*1
  | None => []
  end.

(** [delete_entity]: the loop, then [del self._entities[entity]] whose
    [KeyError] is caught. *)
Definition delete_entity (entity : EntityId) (w : World) : World * option exn :=
  match delete_entity_loop entity (entity_component_types entity w) (_components w) with
  | (cs, Some e) => (set_components cs w, Some e)
  | (cs, None) =>
      (set_entities (delete entity (_entities w)) (set_components cs w), None)
  end.

(** [component_for_entity]: the instance, or [None] when the lookup raises
    [KeyError]. *)
Definition component_for_entity (entity : EntityId) (component_type : ComponentType)
    (w : World) : option Component :=
  m ← _entities w !! entity; m !! component_type.

(** [add_component] *)
Definition add_component (entity : EntityId) (component_instance : Component)
    (w : World) : World :=
  let component_type := component_class component_instance in
  let s := default ∅ (_components w !! component_type) in
  let m := default ∅ (_entities w !! entity) in
  {| _processors := _processors w; _next_entity_id := _next_entity_id w;
     _components := <[component_type := {[entity]} ∪ s]> (_components w);
     _entities := <[entity := <[component_type := component_instance]> m]> (_entities w) |}.

(** [delete_component]: two [try] blocks, each swallowing [KeyError]. *)
Definition delete_component (entity : EntityId) (component_type : ComponentType)
    (w : World) : World :=
  let cs :=
    match _components w !! component_type with
    | None => _components w
    | Some s => discard_and_prune entity component_type s (_components w)
    end in
  let es :=
    match _entities w !! entity with
    | None => _entities w
    | Some m =>
        match m !! component_type with
        | None => _entities w
        | Some _ =>
            let m' := delete component_type m in
            if decide (m' = ∅) then delete entity (_entities w)
            else <[entity := m']> (_entities w)
        end
    end in
  {| _processors := _processors w; _next_entity_id := _next_entity_id w;
     _components := cs; _entities := es |}.

(** ** Multi-component queries

    Both methods are generators.  The model is their consumption to the
    end by a caller that does not touch the world in between: the items
    yielded, the exception that ended the iteration (if any), and for
    [get_components] the world it leaves. *)

(** [for entity in ...: yield entity, entitydb[entity][component_type]] *)
Fixpoint get_component_loop (entitydb : gmap EntityId (gmap ComponentType Component))
    (component_type : ComponentType) (es : list EntityId)
    : list (EntityId * Component) * option exn :=
  match es with
  | [] => ([], None)
  | entity :: rest =>
      match entitydb !! entity ≫= (λ m, m !! component_type) with
      | None => ([], Some KeyError)
      | Some c =>
          let '(ys, r) := get_component_loop entitydb component_type rest in
          ((entity, c) :: ys, r)
      end
  end.

(** [get_component]: iterates [self._components.get(component_type, [])]. *)
Definition get_component (component_type : ComponentType) (w : World)
    : list (EntityId * Component) * option exn :=
  match _components w !! component_type with
  | None => ([], None)
  | Some s => get_component_loop (_entities w) component_type (elements s)
  end.

(** [[components[ct] for ct in component_types if ct in components]] *)
Definition component_list (component_types : list ComponentType)
    (components : gmap ComponentType Component) : list Component :=
  omap (λ ct, components !! ct) component_types.

(** The narrowing loop of [get_components].  [entities] is the set object
    stored under the first requested type, so [entities &= ...] updates
    that entry of [self._components] in place. *)
Fixpoint intersect_loop (first : ComponentType) (entities : gset EntityId)
    (rest : list ComponentType) (cs : gmap ComponentType (gset EntityId))
    : gset EntityId * gmap ComponentType (gset EntityId) * option exn :=
  match rest with
  | [] => (entities, cs, None)
  | component_type :: rest' =>
      match cs !! component_type with
      | None => (entities, cs, Some KeyError)
      | Some s =>
          let entities' := entities ∩ s in
          intersect_loop first entities' rest' (<[first := entities']> cs)
      end
  end.

(** The yielding loop of [get_components]. *)
Fixpoint get_components_yield (entitydb : gmap EntityId (gmap ComponentType Component))
    (component_types : list ComponentType) (es : list EntityId)
    : list (EntityId * list Component) * option exn :=
  match es with
  | [] => ([], None)
  | entity :: rest =>
      match entitydb !! entity with
      | None => ([], Some KeyError)
      | Some components =>
          let '(ys, r) := get_components_yield entitydb component_types rest in
          ((entity, component_list component_types components) :: ys, r)
      end
  end.

(** [get_components]: [component_types[0]] raises [IndexError] on the empty
    tuple, [self._components[...]] raises [KeyError] on a type without
    entry. *)
Definition get_components (component_types : list ComponentType) (w : World)
    : World * (list (EntityId * list Component) * option exn) :=
  match component_types with
  | [] => (w, ([], Some IndexError))
  | first :: rest =>
      match _components w !! first with
      | None => (w, ([], Some KeyError))
      | Some entities =>
          match intersect_loop first entities rest (_components w) with
          | (_, cs, Some e) => (set_components cs w, ([], Some e))
          | (entities', cs, None) =>
              (set_components cs w,
               get_components_yield (_entities w) component_types (elements entities'))
          end
      end
  end.

(** ** Processors

    Processor instances are objects outside the world: the world keeps
    references to them and writes their [priority] and [world] attributes.
    The heap maps a reference to the object it denotes.  The class
    [esper.Processor] is not part of world.py; of an instance the world
    uses its class, the two attributes it writes, and [process()]. *)

Inductive WorldRef := ThisWorld.

Record Processor := mkProcessor {
  processor_class : string;
  priority : Z;
  world : option WorldRef
}.

Definition Heap := ProcessorRef → Processor.

Definition set_priority (p : ProcessorRef) (n : Z) (h : Heap) : Heap :=
  λ a, if decide (a = p)
       then {| processor_class := processor_class (h a); priority := n; world := world (h a) |}
       else h a.

Definition set_world (p : ProcessorRef) (r : option WorldRef) (h : Heap) : Heap :=
  λ a, if decide (a = p)
       then {| processor_class := processor_class (h a); priority := priority (h a); world := r |}
       else h a.

(** [list.sort(key=...)] is a stable sort, ascending in the key. *)
Fixpoint insert_by_key {A} (key : A → Z) (x : A) (l : list A) : list A :=
  match l with
  | [] => [x]
  | y :: l' =>
      if decide (key x ≤ key y) then x :: y :: l'
      else y :: insert_by_key key x l'
  end.

Fixpoint sort_by_key {A} (key : A → Z) (l : list A) : list A :=
  match l with
  | [] => []
  | x :: l' => insert_by_key key x (sort_by_key key l')
  end.

(** [add_processor] *)
Definition add_processor (processor_instance : ProcessorRef) (prio : Z)
    (h : Heap) (w : World) : Heap * World :=
  let h1 := set_priority processor_instance prio h in
  let h2 := set_world processor_instance (Some ThisWorld) h1 in
  let ps := _processors w ++ [processor_instance] in
  (h2, set_processors (sort_by_key (λ processor, - priority (h2 processor)) ps) w).

(** [list.remove(x)]: the first occurrence goes.  (It raises [ValueError]
    when there is none; [remove_processor] only removes what it has just
    read from the list.) *)
Fixpoint list_remove (x : ProcessorRef) (l : list ProcessorRef) : list ProcessorRef :=
  match l with
  | [] => []
  | y :: l' => if decide (y = x) then l' else y :: list_remove x l'
  end.

(** The [for] loop of [remove_processor].  A Python list iterator keeps an
    index into the list it iterates, and the body removes from that very
    list.  [None] is returned when the fuel is used up. *)
Fixpoint remove_processor_loop (fuel : nat) (i : nat) (processor_type : string)
    (h : Heap) (ps : list ProcessorRef) : option (Heap * list ProcessorRef) :=
  match ps !! i with
  | None => Some (h, ps)
  | Some processor =>
      match fuel with
      | O => None
      | S fuel' =>
          if decide (processor_class (h processor) = processor_type)
          then remove_processor_loop fuel' (S i) processor_type
                 (set_world processor None h) (list_remove processor ps)
          else remove_processor_loop fuel' (S i) processor_type h ps
      end
  end.

(** [remove_processor] *)
Definition remove_processor (processor_type : string) (h : Heap) (w : World)
    : option (Heap * World) :=
  '(h', ps) ← remove_processor_loop (length (_processors w)) 0 processor_type h (_processors w);
  Some (h', set_processors ps w).

(** [process]: the processors whose [process()] is called, in call order. *)
Definition process (w : World) : list ProcessorRef :=
  foldl (λ calls processor, calls ++ [processor]) [] (_processors w).

(** A sequence of [add_processor] calls. *)
Definition add_processors (calls : list (ProcessorRef * Z)) (h : Heap) (w : World)
    : Heap * World :=
  foldl (λ hw c, add_processor c.1 c.2 hw.1 hw.2) (h, w) calls.

(** [ps] lists the processors of each priority in the order in which
    [inserted] has them. *)
Definition keeps_insertion_order (h : Heap) (inserted ps : list ProcessorRef) : Prop :=
  ∀ k, filter (λ p, priority (h p) = k) ps = filter (λ p, priority (h p) = k) inserted.

(** [ps] is in descending order of priority. *)
Definition descending (h : Heap) (ps : list ProcessorRef) : Prop :=
  StronglySorted (λ p q, priority (h q) ≤ priority (h p)) ps.

(** ** Calls and runs

    The caller surface of a [World], as a type of calls, so that sequences
    of calls can be quantified over.  A run continues after a call that
    raised, from the state the call left behind.  (The [None] branch of
    [RemoveProcessor] is never taken: see [remove_processor_total].) *)

Record Machine := mkMachine { heap : Heap; self : World }.

Inductive Op :=
  | CreateEntity
  | DeleteEntity (entity : EntityId)
  | AddComponent (entity : EntityId) (component_instance : Component)
  | DeleteComponent (entity : EntityId) (component_type : ComponentType)
  | ClearDatabase
  | ComponentForEntity (entity : EntityId) (component_type : ComponentType)
  | GetComponent (component_type : ComponentType)
  | GetComponents (component_types : list ComponentType)
  | AddProcessor (processor_instance : ProcessorRef) (prio : Z)
  | RemoveProcessor (processor_type : string)
  | Process.

#[global] Instance Op_eq_dec : EqDecision Op.
Proof. solve_decision. Defined.

Definition exec (o : Op) (m : Machine) : Machine :=
  match o with
  | CreateEntity => mkMachine (heap m) (create_entity (self m)).1
  | DeleteEntity e => mkMachine (heap m) (delete_entity e (self m)).1
  | AddComponent e c => mkMachine (heap m) (add_component e c (self m))
  | DeleteComponent e ct => mkMachine (heap m) (delete_component e ct (self m))
  | ClearDatabase => mkMachine (heap m) (clear_database (self m))
  | ComponentForEntity _ _ => m
  | GetComponent _ => m
  | GetComponents cts => mkMachine (heap m) (get_components cts (self m)).1
  | AddProcessor p prio =>
      let '(h, w) := add_processor p prio (heap m) (self m) in mkMachine h w
  | RemoveProcessor ty =>
      match remove_processor ty (heap m) (self m) with
      | Some (h, w) => mkMachine h w
      | None => m
      end
  | Process => m
  end.

Definition run (os : list Op) (m : Machine) : Machine :=
  foldl (λ m o, exec o m) m os.

(** The identifiers returned by the [create_entity] calls of a run. *)
Fixpoint issued (os : list Op) (m : Machine) : list EntityId :=
  match os with
  | [] => []
  | o :: os' =>
      match o with
      | CreateEntity => [(create_entity (self m)).2]
      | _ => []
      end ++ issued os' (exec o m)
  end.

(** The calls the specification lists as mutating. *)
Definition mutating (o : Op) : bool :=
  match o with
  | CreateEntity | DeleteEntity _ | AddComponent _ _
  | DeleteComponent _ _ | ClearDatabase => true
  | _ => false
  end.

(** A heap of detached processors, all of one class. *)
Definition heap0 : Heap := λ _, mkProcessor "Processor" 0 None.

Definition reachable (w : World) : Prop :=
  ∃ h os, w = self (run os (mkMachine h new_world)).

(** ** The relations of the data model *)

(** Membership in the set stored under a type. *)
Definition holds (cs : gmap ComponentType (gset EntityId)) (e : EntityId)
    (T : ComponentType) : Prop :=
  ∃ s, cs !! T = Some s ∧ e ∈ s.

(** [e] is in [type_entities[T]]. *)
Definition in_type_entities (w : World) (e : EntityId) (T : ComponentType) : Prop :=
  holds (_components w) e T.

(** [entity_components[e]] has an entry for [T]. *)
Definition has_component (w : World) (e : EntityId) (T : ComponentType) : Prop :=
  is_Some (component_for_entity e T w).

Definition I1 (w : World) : Prop :=
  ∀ e T, in_type_entities w e T ↔ has_component w e T.

Definition no_empty_set (cs : gmap ComponentType (gset EntityId)) : Prop :=
  ∀ T s, cs !! T = Some s → s ≠ ∅.

Definition no_empty_dict (es : gmap EntityId (gmap ComponentType Component)) : Prop :=
  ∀ e m, es !! e = Some m → m ≠ ∅.

Definition I2 (w : World) : Prop :=
  no_empty_set (_components w) ∧ no_empty_dict (_entities w).

(** One half of [I1]: what the index lists is really there. *)
Definition index_sound (w : World) : Prop :=
  ∀ e T, in_type_entities w e T → has_component w e T.

(** [type_entities[T]], empty when [T] has no entry. *)
Definition type_entities (w : World) (T : ComponentType) : gset EntityId :=
  default ∅ (_components w !! T).

(** The set the narrowing loop computes, over the store it started from. *)
Definition narrowed (cs0 : gmap ComponentType (gset EntityId))
    (entities : gset EntityId) (rest : list ComponentType) : gset EntityId :=
  foldl (λ acc T, acc ∩ default ∅ (cs0 !! T)) entities rest.

(** Every stored instance is stored under its own class. *)
Definition well_classed (w : World) : Prop :=
  ∀ e T c, component_for_entity e T w = Some c → component_class c = T.

(** ** Concrete components and worlds, after tests/test_world.py *)

Definition cA := mkComponent "ComponentA" 1.
Definition cB := mkComponent "ComponentB" 2.
Definition cC := mkComponent "ComponentC" 3.
Definition cD := mkComponent "ComponentD" 4.
Definition cE := mkComponent "ComponentE" 5.

(** The world of [test_delete_entity] just before [delete_entity(999)]. *)
Definition test_delete_entity_world : World :=
  self (run [CreateEntity; AddComponent 1 cC; CreateEntity; AddComponent 2 cD;
             CreateEntity; AddComponent 3 cE; DeleteEntity 3]
          (mkMachine heap0 new_world)).

(** Entity 1 holds an A, entity 2 holds a B. *)
Definition world_1A_2B : World :=
  add_component 2 cB (add_component 1 cA new_world).

(** Entity 1 holds an A and a B, entity 2 holds an A. *)
Definition world_1AB_2A : World :=
  add_component 2 cA (add_component 1 cB (add_component 1 cA new_world)).

(** Entity 1 gets an A, entity 2 a B, the query for both types is
    consumed, and an entity is created. *)
Definition query_then_create : list Op :=
  [AddComponent 1 cA; AddComponent 2 cB;
   GetComponents ["ComponentA"; "ComponentB"]; CreateEntity].

Definition world_after_query : World :=
  self (run query_then_create (mkMachine heap0 new_world)).

(** Entities 1 and 2 get an A, entity 2 also a B, the query for both
    types is consumed, and entity 2 is deleted. *)
Definition world_after_query_and_delete : World :=
  self (run [AddComponent 1 cA; AddComponent 2 cA; AddComponent 2 cB;
             GetComponents ["ComponentA"; "ComponentB"]; DeleteEntity 2]
          (mkMachine heap0 new_world)).

(** The processors of [test_remove_processor]: object 0 is a
    [CorrectProcessorA], and it is added to the world. *)
Definition test_heap : Heap :=
  λ a, mkProcessor (if decide (a = 0%nat) then "CorrectProcessorA" else "CorrectProcessorB")
         0 None.

Definition test_remove_processor_heap : Heap :=
  (add_processor 0 0 test_heap new_world).1.

Definition test_remove_processor_world : World :=
  (add_processor 0 0 test_heap new_world).2.

(** Two processors of one class, added with the same priority. *)
Definition two_processors_heap : Heap :=
  (add_processors [(0%nat, 0); (1%nat, 0)] heap0 new_world).1.

Definition two_processors_world : World :=
  (add_processors [(0%nat, 0); (1%nat, 0)] heap0 new_world).2.

(** [create_entities] of tests/test_world.py: one round of its loop
    creates an entity with an A, a B, a D and an E, and an entity with a
    C, a D and an E. *)
Definition create_entities_round (w : World) : World :=
  let '(w, enemy_type_a) := create_entity w in
  let w := add_component enemy_type_a cA w in
  let w := add_component enemy_type_a cB w in
  let w := add_component enemy_type_a cD w in
  let w := add_component enemy_type_a cE w in
  let '(w, enemy_type_b) := create_entity w in
  let w := add_component enemy_type_b cC w in
  let w := add_component enemy_type_b cD w in
  add_component enemy_type_b cE w.

(** [for _ in range(number // 2)]: [//] rounds down, and the range of a
    negative number is empty. *)
Definition create_entities (number : Z) (w : World) : World :=
  Nat.iter (Z.to_nat (number / 2)) create_entities_round w.

(** What [k] rounds on a new world are to store for entity [e] under [T]:
    the entities are 1 to [2 * k], the odd ones of the first kind, the even
    ones of the second. *)
Definition populated_component (k : Z) (e : EntityId) (T : ComponentType)
    : option Component :=
  if decide (1 ≤ e ≤ 2 * k) then
    if Z.odd e then
      if decide (T = "ComponentA") then Some cA
      else if decide (T = "ComponentB") then Some cB
      else if decide (T = "ComponentD") then Some cD
      else if decide (T = "ComponentE") then Some cE
      else None
    else
      if decide (T = "ComponentC") then Some cC
      else if decide (T = "ComponentD") then Some cD
      else if decide (T = "ComponentE") then Some cE
      else None
  else None.

(** Entity 1 holds an A and a C, entity 2 a B, and the query for A and B
    has been consumed. *)
Definition world_1AC_2B_after_query : World :=
  self (run [AddComponent 1 cA; AddComponent 1 cC; AddComponent 2 cB;
             GetComponents ["ComponentA"; "ComponentB"]]
          (mkMachine heap0 new_world)).

(** Entity 1 holds an A, entity 2 a B, the query for A and B has been
    consumed, and [delete_component(5, ComponentA)] was called. *)
Definition world_after_query_and_delete_component : World :=
  self (run [AddComponent 1 cA; AddComponent 2 cB;
             GetComponents ["ComponentA"; "ComponentB"];
             DeleteComponent 5 "ComponentA"]
          (mkMachine heap0 new_world)).

(** ** The order in which [delete_entity] visits the types

    [delete_entity] with the order of the visit given: [cts] stands for
    what iterating the entity's dict yields. *)
Definition delete_entity_visiting (cts : list ComponentType) (entity : EntityId)
    (w : World) : World * option exn :=
  match delete_entity_loop entity cts (_components w) with
  | (cs, Some e) => (set_components cs w, Some e)
  | (cs, None) =>
      (set_entities (delete entity (_entities w)) (set_components cs w), None)
  end.

(** [cts] lists every key of the entity's dict once. *)
Definition lists_component_types (cts : list ComponentType) (entity : EntityId)
    (w : World) : Prop :=
  NoDup cts ∧ ∀ T, T ∈ cts ↔ has_component w entity T.

(** The states a world can reach when [delete_entity] may visit the types
    of the entity in any order. *)
Inductive reachable_in_any_order : Machine → Prop :=
  | reachable_new (h : Heap) : reachable_in_any_order (mkMachine h new_world)
  | reachable_exec (o : Op) (m : Machine) :
      reachable_in_any_order m → reachable_in_any_order (exec o m)
  | reachable_delete_entity (cts : list ComponentType) (entity : EntityId) (m : Machine) :
      reachable_in_any_order m →
      lists_component_types cts entity (self m) →
      reachable_in_any_order
        (mkMachine (heap m) (delete_entity_visiting cts entity (self m)).1).

(** Entity 1 gets a D and an A, entity 2 an A and a B, the query for A
    and B is consumed, and entity 2 is deleted: entity 1 still has its D
    and its A, and [_components] has an entry for D only. *)
Definition world_1DA_after_query_and_delete : World :=
  self (run [AddComponent 1 cD; AddComponent 1 cA; AddComponent 2 cA; AddComponent 2 cB;
             GetComponents ["ComponentA"; "ComponentB"]; DeleteEntity 2]
          (mkMachine heap0 new_world)).

(** * Theorems *)

(** ** clear_database and create_entity *)

(** C10: for every world, [clear_database] empties both maps and resets
    the counter, so that the next [create_entity] returns 1; the processor
    list is left as it was. *)
Theorem clear_database_resets (w : World) :
  _entities (clear_database w) = ∅ ∧
  _components (clear_database w) = ∅ ∧
  _next_entity_id (clear_database w) = 0 ∧
  (create_entity (clear_database w)).2 = 1 ∧
  _processors (clear_database w) = _processors w.
Proof. by cbn. Qed.

Lemma exec_counter_nonneg o m :
  0 ≤ _next_entity_id (self m) → 0 ≤ _next_entity_id (self (exec o m)).
Proof.
  intros Hm. destruct o; cbn; try lia; try done.
  - unfold delete_entity.
    by destruct (delete_entity_loop _ _ _) as [cs [e|]].
  - unfold get_components. destruct component_types as [|first rest]; [done|].
    destruct (_components (self m) !! first) as [s|]; [|done].
    by destruct (intersect_loop _ _ _ _) as [[s' cs] [e|]].
  - unfold remove_processor.
    destruct (remove_processor_loop _ _ _ _ _) as [[h ps]|]; by cbn.
Qed.

Lemma run_counter_nonneg os m :
  0 ≤ _next_entity_id (self m) → 0 ≤ _next_entity_id (self (run os m)).
Proof.
  revert m. induction os as [|o os IH]; intros m Hm; [done|].
  cbn. apply IH. by apply exec_counter_nonneg.
Qed.

Lemma exec_counter_mono o m :
  o ≠ ClearDatabase →
  _next_entity_id (self m) ≤ _next_entity_id (self (exec o m)).
Proof.
  intros Ho. destruct o; cbn; try lia; try done.
  - unfold delete_entity.
    by destruct (delete_entity_loop _ _ _) as [cs [e|]].
  - unfold get_components. destruct component_types as [|first rest]; [done|].
    destruct (_components (self m) !! first) as [s|]; [|done].
    by destruct (intersect_loop _ _ _ _) as [[s' cs] [e|]].
  - unfold remove_processor.
    destruct (remove_processor_loop _ _ _ _ _) as [[h ps]|]; by cbn.
Qed.

Lemma issued_app os1 os2 m :
  issued (os1 ++ os2) m = issued os1 m ++ issued os2 (run os1 m).
Proof.
  revert m. induction os1 as [|o os1 IH]; intros m; [done|].
  cbn. by rewrite IH, (assoc_L (++)).
Qed.

Lemma issued_above os m :
  ClearDatabase ∉ os →
  Forall (λ i, _next_entity_id (self m) < i) (issued os m).
Proof.
  revert m. induction os as [|o os IH]; intros m Hos; [constructor|].
  apply not_elem_of_cons in Hos as [Ho Hos].
  cbn. apply Forall_app. split.
  - destruct o; try constructor; cbn; [lia | constructor].
  - eapply Forall_impl; [by apply IH|].
    intros i Hi. cbn in Hi.
    pose proof (exec_counter_mono o m (not_eq_sym Ho)). lia.
Qed.

Lemma issued_sorted os m :
  ClearDatabase ∉ os → StronglySorted Z.lt (issued os m).
Proof.
  revert m. induction os as [|o os IH]; intros m Hos; [constructor|].
  apply not_elem_of_cons in Hos as [Ho Hos].
  destruct (decide (o = CreateEntity)) as [->|Hne].
  - cbn. constructor; [by apply IH|].
    eapply Forall_impl; [by apply (issued_above os)|].
    intros i Hi. cbn in Hi. lia.
  - assert (issued (o :: os) m = issued os (exec o m)) as ->
      by (by destruct o).
    by apply IH.
Qed.

Lemma issued_positive os m :
  0 ≤ _next_entity_id (self m) → Forall (λ i, 0 < i) (issued os m).
Proof.
  revert m. induction os as [|o os IH]; intros m Hm; [constructor|].
  cbn. apply Forall_app. split.
  - destruct o; try constructor; cbn; [lia | constructor].
  - apply IH. by apply exec_counter_nonneg.
Qed.

(** C7, as the code has it: [create_entity] never returns 0, and in a
    stretch of calls without [clear_database] the identifiers it returns
    are strictly increasing (so none is returned twice there). *)
Theorem create_entity_ids_increase_between_clears (h : Heap) (pre post : list Op) :
  ClearDatabase ∉ post →
  StronglySorted Z.lt (issued post (run pre (mkMachine h new_world))) ∧
  Forall (λ i, 0 < i) (issued (pre ++ post) (mkMachine h new_world)).
Proof.
  intros Hpost. split.
  - by apply issued_sorted.
  - by apply issued_positive.
Qed.

Lemma create_entity_ids_increase_between_clears_witness :
  (ClearDatabase ∉ [CreateEntity; AddComponent 1 cA; CreateEntity]) ∧
  StronglySorted Z.lt
    (issued [CreateEntity; AddComponent 1 cA; CreateEntity]
       (run [CreateEntity; ClearDatabase] (mkMachine heap0 new_world))) ∧
  Forall (λ i, 0 < i)
    (issued ([CreateEntity; ClearDatabase] ++ [CreateEntity; AddComponent 1 cA; CreateEntity])
       (mkMachine heap0 new_world)).
Proof.
  assert (ClearDatabase ∉ [CreateEntity; AddComponent 1 cA; CreateEntity]) as Hno.
  { rewrite !not_elem_of_cons. repeat split; try discriminate. apply not_elem_of_nil. }
  split; [exact Hno|].
  exact (create_entity_ids_increase_between_clears heap0
           [CreateEntity; ClearDatabase]
           [CreateEntity; AddComponent 1 cA; CreateEntity] Hno).
Defined.

(** C7 as stated fails: after [clear_database] the counter starts again,
    and [create_entity] returns 1 a second time. *)
Lemma create_entity_reissues_after_clear :
  (issued [CreateEntity; ClearDatabase; CreateEntity] (mkMachine heap0 new_world) = [1; 1]) ∧
  ¬ NoDup (issued [CreateEntity; ClearDatabase; CreateEntity] (mkMachine heap0 new_world)).
Proof.
  split; [reflexivity|].
  cbn. intros Hnd. apply NoDup_cons in Hnd as [Hin _].
  apply Hin. constructor.
Qed.

(** ** delete_entity on an entity without entry *)

Lemma World_eta (w : World) :
  {| _processors := _processors w; _next_entity_id := _next_entity_id w;
     _components := _components w; _entities := _entities w |} = w.
Proof. by destruct w. Qed.

(** C5: for an entity that has no entry in [_entities], [delete_entity]
    returns normally and leaves the world as it was; no exception reaches
    the caller. *)
Theorem delete_entity_without_entry_is_silent (w : World) (entity : EntityId) :
  _entities w !! entity = None →
  delete_entity entity w = (w, None).
Proof.
  intros Hnone. unfold delete_entity, entity_component_types.
  rewrite Hnone. cbn. unfold set_entities, set_components. cbn.
  rewrite (delete_id _ _ Hnone). by rewrite World_eta.
Qed.

Lemma delete_entity_without_entry_is_silent_witness :
  _entities test_delete_entity_world !! 999 = None ∧
  delete_entity 999 test_delete_entity_world = (test_delete_entity_world, None).
Proof.
  assert (_entities test_delete_entity_world !! 999 = None) as Hnone
    by (vm_compute; reflexivity).
  split; [exact Hnone|].
  exact (delete_entity_without_entry_is_silent test_delete_entity_world 999 Hnone).
Defined.

(** For an entity that has entries, [delete_entity] raises nothing in a
    world that satisfies [I1] (lemma [I1_delete_entity_ok] below).  After a
    consumed query it can raise: entity 1 still has its A, but the set of
    A was narrowed to entity 2 and pruned with it. *)
Example delete_entity_raises_after_consumed_query :
  component_for_entity 1 "ComponentA" world_after_query_and_delete = Some cA ∧
  (delete_entity 1 world_after_query_and_delete).2 = Some KeyError.
Proof. split; vm_compute; reflexivity. Qed.

(** ** Queries on unknown types and on no types *)

Lemma intersect_loop_unknown first T rest entities cs :
  T ∈ rest → cs !! T = None → T ≠ first →
  (intersect_loop first entities rest cs).2 = Some KeyError.
Proof.
  revert entities cs. induction rest as [|ct rest IH]; intros entities cs HT Hnone Hne.
  - by apply elem_of_nil in HT.
  - cbn. destruct (cs !! ct) as [s|] eqn:Hct; [|done].
    apply elem_of_cons in HT as [->|HT]; [congruence|].
    apply IH; [done| |done].
    by rewrite lookup_insert_ne.
Qed.

(** C3: when one of the requested types has no entry, consuming
    [get_components] yields nothing and ends in a [KeyError];
    [get_component] on such a type yields nothing and raises nothing. *)
Theorem queries_on_unknown_type (w : World) (T : ComponentType) (Ts : list ComponentType) :
  T ∈ Ts → _components w !! T = None →
  (get_components Ts w).2 = ([], Some KeyError) ∧
  get_component T w = ([], None).
Proof.
  intros HT Hnone. split.
  - unfold get_components. destruct Ts as [|first rest].
    { by apply elem_of_nil in HT. }
    destruct (_components w !! first) as [entities|] eqn:Hfirst; [|done].
    assert (T ≠ first) as Hne by congruence.
    apply elem_of_cons in HT as [?|HT]; [done|].
    pose proof (intersect_loop_unknown first T rest entities (_components w) HT Hnone Hne) as Hloop.
    destruct (intersect_loop first entities rest (_components w)) as [[s cs] [e|]];
      cbn in Hloop; by simplify_eq.
  - unfold get_component. by rewrite Hnone.
Qed.

Lemma queries_on_unknown_type_witness :
  "ComponentB" ∈ ["ComponentA"; "ComponentB"] ∧
  _components (add_component 1 cA new_world) !! "ComponentB" = None ∧
  (get_components ["ComponentA"; "ComponentB"] (add_component 1 cA new_world)).2
    = ([], Some KeyError) ∧
  get_component "ComponentB" (add_component 1 cA new_world) = ([], None).
Proof.
  assert ("ComponentB" ∈ ["ComponentA"; "ComponentB"]) as Hin
    by (apply elem_of_cons; right; apply elem_of_cons; by left).
  assert (_components (add_component 1 cA new_world) !! "ComponentB" = None) as Hnone
    by (vm_compute; reflexivity).
  split; [exact Hin|]. split; [exact Hnone|].
  exact (queries_on_unknown_type (add_component 1 cA new_world) "ComponentB"
           ["ComponentA"; "ComponentB"] Hin Hnone).
Defined.

Lemma list_remove_length x l : (length (list_remove x l) ≤ length l)%nat.
Proof.
  induction l as [|y l IH]; cbn; [lia|].
  case_decide; cbn; lia.
Qed.

(** The loop of [remove_processor] ends: the fuel it is given suffices. *)
Lemma remove_processor_loop_total fuel i ty h ps :
  (length ps ≤ fuel + i)%nat →
  is_Some (remove_processor_loop fuel i ty h ps).
Proof.
  revert i h ps. induction fuel as [|fuel IH]; intros i h ps Hlen.
  - cbn. destruct (ps !! i) eqn:Hi; [|by eexists].
    apply lookup_lt_Some in Hi. lia.
  - cbn. destruct (ps !! i) as [p|] eqn:Hi; [|by eexists].
    case_decide.
    + apply IH. pose proof (list_remove_length p ps). lia.
    + apply IH. lia.
Qed.

Lemma remove_processor_total ty h w : is_Some (remove_processor ty h w).
Proof.
  unfold remove_processor.
  destruct (remove_processor_loop_total (length (_processors w)) 0 ty h (_processors w))
    as [[h' ps] ->]; [lia|].
  by eexists.
Qed.

Lemma remove_processor_loop_no_match fuel i ty h ps :
  (length ps ≤ fuel + i)%nat →
  (∀ p, p ∈ ps → processor_class (h p) ≠ ty) →
  remove_processor_loop fuel i ty h ps = Some (h, ps).
Proof.
  revert i. induction fuel as [|fuel IH]; intros i Hlen Hno.
  - cbn. destruct (ps !! i) eqn:Hi; [|done].
    apply lookup_lt_Some in Hi. lia.
  - cbn. destruct (ps !! i) as [p|] eqn:Hi; [|done].
    rewrite decide_False; [apply IH; [lia|done]|].
    apply Hno. by eapply list_elem_of_lookup_2.
Qed.

(** C6, as the code has it: consuming [get_components()] with no type
    ends in an [IndexError]; [remove_processor] with a type that no
    registered processor has returns normally and changes nothing. *)
Theorem calls_outside_the_intended_use (w : World) (h : Heap) (processor_type : string) :
  (∀ p, p ∈ _processors w → processor_class (h p) ≠ processor_type) →
  get_components [] w = (w, ([], Some IndexError)) ∧
  remove_processor processor_type h w = Some (h, w).
Proof.
  intros Hno. split; [done|].
  unfold remove_processor.
  rewrite remove_processor_loop_no_match; [|lia|done].
  cbn. unfold set_processors. by rewrite World_eta.
Qed.

Lemma calls_outside_the_intended_use_witness :
  (∀ p, p ∈ _processors test_remove_processor_world →
        processor_class (test_remove_processor_heap p) ≠ "CorrectProcessorB") ∧
  get_components [] test_remove_processor_world
    = (test_remove_processor_world, ([], Some IndexError)) ∧
  remove_processor "CorrectProcessorB" test_remove_processor_heap test_remove_processor_world
    = Some (test_remove_processor_heap, test_remove_processor_world).
Proof.
  assert (∀ p, p ∈ _processors test_remove_processor_world →
               processor_class (test_remove_processor_heap p) ≠ "CorrectProcessorB") as Hno.
  { assert (_processors test_remove_processor_world = [0%nat]) as ->
      by (vm_compute; reflexivity).
    intros p Hp%list_elem_of_singleton. subst p. vm_compute. discriminate. }
  split; [exact Hno|].
  exact (calls_outside_the_intended_use test_remove_processor_world
           test_remove_processor_heap "CorrectProcessorB" Hno).
Defined.

(** C6 as stated fails: the query with no type raises. *)
Lemma get_components_of_no_type_raises :
  (get_components [] new_world).2 = ([], Some IndexError).
Proof. reflexivity. Qed.

(** ** The type index under the storage operations *)

Lemma discard_and_prune_holds e ct s cs e' T :
  cs !! ct = Some s →
  holds (discard_and_prune e ct s cs) e' T ↔ holds cs e' T ∧ ¬ (e' = e ∧ T = ct).
Proof.
  intros Hs. unfold discard_and_prune, holds.
  destruct (decide (T = ct)) as [->|Hne].
  - case_decide as Hempty.
    + rewrite lookup_delete_eq. split.
      * by intros (? & ? & ?).
      * intros [(s0 & Hs0 & Hin) Hno]. simplify_eq.
        destruct (decide (e' = e)) as [->|He]; [by destruct Hno|].
        assert (e' ∈ s ∖ {[e]}) as Hin' by set_solver.
        rewrite Hempty in Hin'. set_solver.
    + rewrite lookup_insert_eq. split.
      * intros (s0 & Hs0 & Hin). simplify_eq. split; [exists s; set_solver|].
        intros [? _]. set_solver.
      * intros [(s0 & Hs0 & Hin) Hno]. simplify_eq.
        eexists; split; [done|].
        destruct (decide (e' = e)) as [->|He]; [by destruct Hno|set_solver].
  - assert ((if decide (s ∖ {[e]} = ∅) then delete ct cs
             else <[ct := s ∖ {[e]}]> cs) !! T = cs !! T) as ->.
    { case_decide; [by rewrite lookup_delete_ne|by rewrite lookup_insert_ne]. }
    split; [intros H; split; [done|]; by intros [_ ?]|by intros [? _]].
Qed.

Lemma discard_and_prune_lookup_ne e ct s cs T :
  T ≠ ct → discard_and_prune e ct s cs !! T = cs !! T.
Proof.
  intros Hne. unfold discard_and_prune.
  case_decide; [by rewrite lookup_delete_ne|by rewrite lookup_insert_ne].
Qed.

Lemma discard_and_prune_no_empty_set e ct s cs :
  no_empty_set cs → no_empty_set (discard_and_prune e ct s cs).
Proof.
  intros Hcs T s0. unfold discard_and_prune.
  case_decide as Hempty.
  - rewrite lookup_delete. case_decide; [done|]. apply Hcs.
  - rewrite lookup_insert. case_decide; [|apply Hcs].
    intros ?. by simplify_eq.
Qed.

(** The loop of [delete_entity] only ever removes [e], whether it ends
    normally or in a [KeyError]. *)
Lemma delete_entity_loop_holds_other e cts cs e' T :
  e' ≠ e →
  holds (delete_entity_loop e cts cs).1 e' T ↔ holds cs e' T.
Proof.
  intros He. revert cs. induction cts as [|ct rest IH]; intros cs; [done|].
  cbn. destruct (cs !! ct) as [s|] eqn:Hct; [|done].
  rewrite IH, discard_and_prune_holds by done. naive_solver.
Qed.

Lemma delete_entity_loop_holds_mono e cts cs e' T :
  holds (delete_entity_loop e cts cs).1 e' T → holds cs e' T.
Proof.
  revert cs. induction cts as [|ct rest IH]; intros cs; [done|].
  cbn. destruct (cs !! ct) as [s|] eqn:Hct; [|done].
  intros H%IH. apply discard_and_prune_holds in H; [|done]. by destruct H.
Qed.

Lemma delete_entity_loop_removes e cts cs T :
  (delete_entity_loop e cts cs).2 = None →
  T ∈ cts → ¬ holds (delete_entity_loop e cts cs).1 e T.
Proof.
  revert cs. induction cts as [|ct rest IH]; intros cs Hok HT.
  - by apply elem_of_nil in HT.
  - cbn in *. destruct (cs !! ct) as [s|] eqn:Hct; [|done].
    destruct (decide (T = ct)) as [->|Hne].
    + intros H%delete_entity_loop_holds_mono.
      apply discard_and_prune_holds in H; [|done]. naive_solver.
    + apply elem_of_cons in HT as [?|HT]; [done|]. by apply IH.
Qed.

Lemma delete_entity_loop_no_empty_set e cts cs :
  no_empty_set cs → no_empty_set (delete_entity_loop e cts cs).1.
Proof.
  revert cs. induction cts as [|ct rest IH]; intros cs Hcs; [done|].
  cbn. destruct (cs !! ct) as [s|] eqn:Hct; [|done].
  by apply IH, discard_and_prune_no_empty_set.
Qed.

(** The loop raises nothing when every type it visits has an entry. *)
Lemma delete_entity_loop_ok e cts cs :
  NoDup cts → (∀ T, T ∈ cts → is_Some (cs !! T)) →
  (delete_entity_loop e cts cs).2 = None.
Proof.
  revert cs. induction cts as [|ct rest IH]; intros cs Hnd Hknown; [done|].
  apply NoDup_cons in Hnd as [Hnotin Hnd].
  cbn. destruct (Hknown ct) as [s Hs]; [by left|]. rewrite Hs.
  apply IH; [done|]. intros T HT.
  rewrite discard_and_prune_lookup_ne; [|by intros ->].
  apply Hknown. by right.
Qed.

(** *** What each storage operation does to the two relations *)

Lemma has_component_alt w e T :
  has_component w e T ↔ ∃ m, _entities w !! e = Some m ∧ is_Some (m !! T).
Proof.
  unfold has_component, component_for_entity.
  destruct (_entities w !! e) as [m|]; cbn.
  - split; [by eexists|]. by intros (m' & [= <-] & ?).
  - split; [by intros [? ?]|]. by intros (? & ? & ?).
Qed.

Lemma in_type_entities_add_component w e c e' T :
  in_type_entities (add_component e c w) e' T ↔
  (e' = e ∧ T = component_class c) ∨ in_type_entities w e' T.
Proof.
  unfold in_type_entities, holds. cbn.
  destruct (decide (T = component_class c)) as [->|Hne].
  - rewrite lookup_insert_eq. split.
    + intros (s & [= <-] & Hin).
      apply elem_of_union in Hin as [Hin|Hin]; [left; set_solver|right].
      destruct (_components w !! component_class c) as [s0|]; cbn in Hin; [eauto|set_solver].
    + intros [[-> _]|(s & Hs & Hin)]; (eexists; split; [done|]); [set_solver|].
      rewrite Hs. cbn. set_solver.
  - rewrite lookup_insert_ne by done. naive_solver.
Qed.

Lemma has_component_add_component w e c e' T :
  has_component (add_component e c w) e' T ↔
  (e' = e ∧ T = component_class c) ∨ has_component w e' T.
Proof.
  rewrite !has_component_alt. cbn.
  destruct (decide (e' = e)) as [->|Hne].
  - rewrite lookup_insert_eq. split.
    + intros (m & [= <-] & Hm).
      destruct (decide (T = component_class c)) as [->|HT]; [by left|right].
      rewrite lookup_insert_ne in Hm by done.
      destruct (_entities w !! e) as [m0|]; cbn in Hm; [eauto|].
      rewrite lookup_empty in Hm. by destruct Hm.
    + intros [[_ ->]|(m & Hm & HT)]; (eexists; split; [done|]).
      * by rewrite lookup_insert_eq.
      * rewrite Hm. cbn. rewrite lookup_insert. case_decide; [by eexists|done].
  - rewrite lookup_insert_ne by done. naive_solver.
Qed.

Lemma in_type_entities_delete_component w e T0 e' T :
  in_type_entities (delete_component e T0 w) e' T ↔
  in_type_entities w e' T ∧ ¬ (e' = e ∧ T = T0).
Proof.
  unfold in_type_entities. cbn.
  destruct (_components w !! T0) as [s|] eqn:Hs.
  - by apply discard_and_prune_holds.
  - split; [|by intros [? _]]. intros H. split; [done|].
    intros [-> ->]. destruct H as (s & ? & _). congruence.
Qed.

Lemma has_component_delete_component w e T0 e' T :
  has_component (delete_component e T0 w) e' T ↔
  has_component w e' T ∧ ¬ (e' = e ∧ T = T0).
Proof.
  rewrite !has_component_alt. cbn.
  destruct (_entities w !! e) as [m|] eqn:Hm.
  - destruct (m !! T0) as [c|] eqn:Hc.
    + case_decide as Hempty.
      * rewrite lookup_delete. case_decide as He.
        { subst e'. split; [by intros (? & ? & ?)|].
          intros [(m' & Hm' & HT) Hno]. assert (m' = m) as -> by congruence.
          destruct (decide (T = T0)) as [->|HT0]; [by destruct Hno|].
          assert (is_Some (delete T0 m !! T)) as Hd by by rewrite lookup_delete_ne.
          rewrite Hempty, lookup_empty in Hd. by destruct Hd. }
        naive_solver.
      * rewrite lookup_insert. case_decide as He.
        { subst e'. split.
          - intros (m' & [= <-] & HT). rewrite lookup_delete in HT.
            case_decide; [by destruct HT|]. naive_solver.
          - intros [(m' & Hm' & HT) Hno]. assert (m' = m) as -> by congruence.
            eexists; split; [done|]. rewrite lookup_delete_ne; [done|].
            intros <-. by apply Hno. }
        naive_solver.
    + split; [|by intros [? _]]. intros H. split; [done|].
      intros [-> ->]. destruct H as (m' & ? & HT). assert (m' = m) as -> by congruence.
      rewrite Hc in HT. by destruct HT.
  - split; [|by intros [? _]]. intros H. split; [done|].
    intros [-> ->]. destruct H as (m' & ? & HT). congruence.
Qed.

Lemma entity_component_types_NoDup e w : NoDup (entity_component_types e w).
Proof.
  unfold entity_component_types.
  destruct (_entities w !! e); [apply NoDup_fst_map_to_list | constructor].
Qed.

Lemma elem_of_entity_component_types e w T :
  T ∈ entity_component_types e w ↔ has_component w e T.
Proof.
  rewrite has_component_alt. unfold entity_component_types.
  destruct (_entities w !! e) as [m|].
  - rewrite list_elem_of_fmap. split.
    + intros ([T' c] & -> & Hin%elem_of_map_to_list). eauto.
    + intros (m' & [= <-] & [c Hc]).
      exists (T, c). split; [done|]. by apply elem_of_map_to_list.
  - split; [by intros ?%elem_of_nil|]. by intros (? & ? & ?).
Qed.

Lemma delete_entity_unfold e w :
  let r := delete_entity_loop e (entity_component_types e w) (_components w) in
  _components (delete_entity e w).1 = r.1 ∧
  (delete_entity e w).2 = r.2 ∧
  _entities (delete_entity e w).1 =
    match r.2 with None => delete e (_entities w) | Some _ => _entities w end.
Proof.
  unfold delete_entity.
  by destruct (delete_entity_loop _ _ _) as [cs [ex|]].
Qed.

Lemma has_component_delete e w e' T :
  (∃ m, delete e (_entities w) !! e' = Some m ∧ is_Some (m !! T)) ↔
  has_component w e' T ∧ e' ≠ e.
Proof.
  rewrite has_component_alt, lookup_delete.
  case_decide; naive_solver.
Qed.

Lemma index_sound_delete_entity e w :
  index_sound w → index_sound (delete_entity e w).1.
Proof.
  intros Hw e' T. unfold in_type_entities.
  destruct (delete_entity_unfold e w) as (-> & _ & Hes).
  rewrite has_component_alt, Hes. intros Hin.
  pose proof (delete_entity_loop_holds_mono _ _ _ _ _ Hin) as Hbefore.
  apply Hw in Hbefore.
  destruct (delete_entity_loop _ _ _).2 eqn:Hr.
  - by apply has_component_alt.
  - apply has_component_delete. split; [done|]. intros ->.
    eapply delete_entity_loop_removes; [done| |done].
    by apply elem_of_entity_component_types.
Qed.

(** In a world that satisfies [I1], [delete_entity] raises nothing. *)
Lemma I1_delete_entity_ok e w : I1 w → (delete_entity e w).2 = None.
Proof.
  intros Hw. destruct (delete_entity_unfold e w) as (_ & -> & _).
  apply delete_entity_loop_ok; [apply entity_component_types_NoDup|].
  intros T HT%elem_of_entity_component_types%Hw.
  destruct HT as (s & -> & _). by eexists.
Qed.

Lemma I1_delete_entity e w : I1 w → I1 (delete_entity e w).1.
Proof.
  intros Hw e' T. unfold in_type_entities.
  pose proof (I1_delete_entity_ok e w Hw) as Hok.
  destruct (delete_entity_unfold e w) as (-> & Hr & Hes).
  rewrite Hr in Hok. rewrite has_component_alt, Hes, Hok, has_component_delete.
  split.
  - intros Hin.
    assert (e' ≠ e) as Hne.
    { intros ->. eapply delete_entity_loop_removes; [done| |done].
      apply elem_of_entity_component_types, Hw.
      by eapply delete_entity_loop_holds_mono. }
    split; [|done]. apply Hw. by eapply delete_entity_loop_holds_other.
  - intros [Hhas Hne]. apply delete_entity_loop_holds_other; [done|]. by apply Hw.
Qed.

Lemma I2_delete_entity e w : I2 w → I2 (delete_entity e w).1.
Proof.
  intros [Hcs Hes]. unfold I2.
  destruct (delete_entity_unfold e w) as (-> & _ & ->).
  split; [by apply delete_entity_loop_no_empty_set|].
  destruct (delete_entity_loop _ _ _).2; [done|].
  intros e' m. rewrite lookup_delete. case_decide; [done|apply Hes].
Qed.

Lemma index_sound_add_component e c w :
  index_sound w → index_sound (add_component e c w).
Proof.
  intros Hw e' T. rewrite in_type_entities_add_component, has_component_add_component.
  intros [?|?]; [by left|right; by apply Hw].
Qed.

Lemma I1_add_component e c w : I1 w → I1 (add_component e c w).
Proof.
  intros Hw e' T. rewrite in_type_entities_add_component, has_component_add_component.
  by rewrite (Hw e' T).
Qed.

Lemma I2_add_component e c w : I2 w → I2 (add_component e c w).
Proof.
  intros [Hcs Hes]. split; cbn.
  - intros T s. rewrite lookup_insert. case_decide; [|apply Hcs].
    intros [= <-]. set_solver.
  - intros e' m. rewrite lookup_insert. case_decide; [|apply Hes].
    intros [= <-]. apply insert_non_empty.
Qed.

Lemma index_sound_delete_component e T0 w :
  index_sound w → index_sound (delete_component e T0 w).
Proof.
  intros Hw e' T.
  rewrite in_type_entities_delete_component, has_component_delete_component.
  intros [? ?]. split; [by apply Hw|done].
Qed.

Lemma I1_delete_component e T0 w : I1 w → I1 (delete_component e T0 w).
Proof.
  intros Hw e' T.
  rewrite in_type_entities_delete_component, has_component_delete_component.
  by rewrite (Hw e' T).
Qed.

Lemma I2_delete_component e T0 w : I2 w → I2 (delete_component e T0 w).
Proof.
  intros [Hcs Hes]. split; cbn.
  - destruct (_components w !! T0); [|done].
    by apply discard_and_prune_no_empty_set.
  - destruct (_entities w !! e) as [m|] eqn:Hm; [|done].
    destruct (m !! T0); [|done].
    case_decide as Hempty; intros e' m'.
    + rewrite lookup_delete. case_decide; [done|apply Hes].
    + rewrite lookup_insert. case_decide; [|apply Hes]. by intros [= <-].
Qed.

Lemma I1_new_world : I1 new_world.
Proof.
  intros e T. rewrite has_component_alt. unfold in_type_entities, holds. cbn.
  rewrite !lookup_empty. naive_solver.
Qed.

Lemma I2_new_world : I2 new_world.
Proof. split; intros ? ?; cbn; by rewrite lookup_empty. Qed.

Lemma I1_index_sound w : I1 w → index_sound w.
Proof. intros Hw e T. by apply Hw. Qed.

(** ** get_components *)

Lemma elem_of_narrowed cs0 entities rest e :
  e ∈ narrowed cs0 entities rest ↔
  e ∈ entities ∧ ∀ T, T ∈ rest → e ∈ default ∅ (cs0 !! T).
Proof.
  unfold narrowed. revert entities.
  induction rest as [|T rest IH]; intros entities; cbn.
  - split; [|by intros [? _]]. intros ?. split; [done|]. by intros ? ?%elem_of_nil.
  - rewrite IH, elem_of_intersection. split.
    + intros [[? ?] Hrest]. split; [done|].
      intros T' [->|?]%elem_of_cons; [done|by apply Hrest].
    + intros [? Hall]. split; [split; [done|apply Hall; by left]|].
      intros T' ?. apply Hall. by right.
Qed.

Lemma narrowed_subseteq cs0 entities rest : narrowed cs0 entities rest ⊆ entities.
Proof. intros e He. by apply elem_of_narrowed in He as [? _]. Qed.

(** When every type has an entry the loop ends normally, and the entry of
    the first type has become the narrowed set; nothing else changed. *)
Lemma intersect_loop_known first entities0 cs0 rest entities :
  cs0 !! first = Some entities0 → entities ⊆ entities0 →
  (∀ T, T ∈ rest → is_Some (cs0 !! T)) →
  intersect_loop first entities rest (<[first := entities]> cs0) =
    (narrowed cs0 entities rest, <[first := narrowed cs0 entities rest]> cs0, None).
Proof.
  intros Hfirst. revert entities.
  induction rest as [|T rest IH]; intros entities Hsub Hknown; [done|].
  cbn. destruct (Hknown T) as [s Hs]; [by left|].
  assert (<[first:=entities]> cs0 !! T = Some (if decide (first = T) then entities else s)) as ->.
  { rewrite lookup_insert. by case_decide. }
  rewrite insert_insert_eq.
  assert (entities ∩ (if decide (first = T) then entities else s)
          = entities ∩ default ∅ (cs0 !! T)) as ->.
  { rewrite Hs. cbn. case_decide as HT; [|done].
    subst T. assert (s = entities0) as -> by congruence. set_solver. }
  change (narrowed cs0 entities (T :: rest))
    with (narrowed cs0 (entities ∩ default ∅ (cs0 !! T)) rest).
  apply IH; [set_solver|].
  intros T' ?. apply Hknown. by right.
Qed.

(** Whatever its outcome, the loop only removes entities from the entry
    of the first type. *)
Lemma intersect_loop_holds_mono first entities rest cs e T :
  cs !! first = Some entities →
  holds (intersect_loop first entities rest cs).1.2 e T → holds cs e T.
Proof.
  revert entities cs. induction rest as [|ct rest IH]; intros entities cs Hfirst; [done|].
  cbn. destruct (cs !! ct) as [s|] eqn:Hct; [|done].
  intros H%IH; [|by rewrite lookup_insert_eq].
  destruct H as (s' & Hs' & Hin). rewrite lookup_insert in Hs'.
  case_decide; [|by exists s'].
  simplify_eq. exists entities. split; [done|set_solver].
Qed.

Lemma get_components_entities Ts w :
  _entities (get_components Ts w).1 = _entities w.
Proof.
  unfold get_components. destruct Ts as [|first rest]; [done|].
  destruct (_components w !! first); [|done].
  by destruct (intersect_loop _ _ _ _) as [[s cs] [ex|]].
Qed.

Lemma get_components_holds_mono Ts w e T :
  in_type_entities (get_components Ts w).1 e T → in_type_entities w e T.
Proof.
  unfold in_type_entities, get_components. destruct Ts as [|first rest]; [done|].
  destruct (_components w !! first) as [entities|] eqn:Hfirst; [|done].
  pose proof (intersect_loop_holds_mono first entities rest (_components w) e T Hfirst) as H.
  by destruct (intersect_loop _ _ _ _) as [[s cs] [ex|]].
Qed.

Lemma index_sound_get_components Ts w :
  index_sound w → index_sound (get_components Ts w).1.
Proof.
  intros Hw e T Hin%get_components_holds_mono%Hw.
  apply has_component_alt. rewrite get_components_entities.
  by apply has_component_alt.
Qed.

Lemma component_list_full Ts m :
  (∀ T, T ∈ Ts → is_Some (m !! T)) →
  Forall2 (λ T c, m !! T = Some c) Ts (component_list Ts m).
Proof.
  induction Ts as [|T Ts IH]; intros Hall; [constructor|].
  unfold component_list. cbn. destruct (Hall T) as [c Hc]; [by left|].
  rewrite Hc. constructor; [done|]. apply IH. intros T' ?. apply Hall. by right.
Qed.

Lemma get_components_yield_ok entitydb Ts es :
  (∀ e, e ∈ es → is_Some (entitydb !! e)) →
  get_components_yield entitydb Ts es =
    ((λ e, (e, component_list Ts (default ∅ (entitydb !! e)))) <$> es, None).
Proof.
  induction es as [|e es IH]; intros Hall; [done|].
  cbn. destruct (Hall e) as [m Hm]; [by left|]. rewrite Hm.
  rewrite IH; [done|]. intros e' ?. apply Hall. by right.
Qed.

Lemma elem_of_type_entities w e T :
  e ∈ type_entities w T ↔ in_type_entities w e T.
Proof.
  unfold type_entities, in_type_entities, holds.
  destruct (_components w !! T) as [s|]; cbn.
  - split; [by eexists|]. by intros (? & [= <-] & ?).
  - split; [set_solver|]. by intros (? & ? & ?).
Qed.

Lemma get_components_known w first rest entities0 :
  _components w !! first = Some entities0 →
  (∀ T, T ∈ rest → is_Some (_components w !! T)) →
  get_components (first :: rest) w =
    (set_components (<[first := narrowed (_components w) entities0 rest]> (_components w)) w,
     get_components_yield (_entities w) (first :: rest)
       (elements (narrowed (_components w) entities0 rest))).
Proof.
  intros Hfirst Hknown. unfold get_components. rewrite Hfirst.
  pose proof (intersect_loop_known first entities0 (_components w) rest entities0
                Hfirst (reflexivity _) Hknown) as Hloop.
  rewrite (insert_id _ _ _ Hfirst) in Hloop. by rewrite Hloop.
Qed.

Lemma elem_of_narrowed_type_entities w first rest entities0 e :
  _components w !! first = Some entities0 →
  e ∈ narrowed (_components w) entities0 rest ↔
  ∀ T, T ∈ first :: rest → e ∈ type_entities w T.
Proof.
  intros Hfirst. rewrite elem_of_narrowed. unfold type_entities. split.
  - intros [? Hrest] T [->|?]%elem_of_cons; [by rewrite Hfirst|by apply Hrest].
  - intros Hall. split.
    + specialize (Hall first). rewrite Hfirst in Hall. apply Hall. by left.
    + intros T ?. apply Hall. by right.
Qed.

Lemma fmap_fst_paired {A B} (g : A → B) (l : list A) :
  ((λ a, (a, g a)) <$> l).*1 = l.
Proof. induction l as [|a l IH]; cbn; [done|by rewrite IH]. Qed.

(** The query on a world whose index is sound, stated on the half of [I1]
    that it needs. *)
Lemma get_components_on_sound_index w Ts :
  index_sound w → Ts ≠ [] →
  (∀ T, T ∈ Ts → is_Some (_components w !! T)) →
  ∃ items,
    (get_components Ts w).2 = (items, None) ∧
    NoDup items.*1 ∧
    (∀ e, e ∈ items.*1 ↔ ∀ T, T ∈ Ts → e ∈ type_entities w T) ∧
    (∀ e cs, (e, cs) ∈ items →
       Forall2 (λ T c, component_for_entity e T w = Some c) Ts cs).
Proof.
  intros Hw Hne Hknown. destruct Ts as [|first rest]; [done|].
  destruct (Hknown first) as [entities0 Hfirst]; [by left|].
  rewrite (get_components_known w first rest entities0 Hfirst)
    by (intros T ?; apply Hknown; by right).
  set (E := narrowed (_components w) entities0 rest).
  assert (∀ e, e ∈ E ↔ ∀ T, T ∈ first :: rest → e ∈ type_entities w T) as HE
    by (intros e; by apply elem_of_narrowed_type_entities).
  assert (∀ e T, e ∈ E → T ∈ first :: rest → has_component w e T) as Hhas.
  { intros e T He HT. apply Hw, elem_of_type_entities. by apply HE. }
  cbn [snd]. rewrite get_components_yield_ok.
  2:{ intros e He%elem_of_elements.
      destruct (proj1 (has_component_alt w e first)) as (m & -> & _); [|by eexists].
      apply Hhas; [done|by left]. }
  eexists. split; [done|].
  rewrite fmap_fst_paired.
  split; [apply NoDup_elements|]. split.
  - intros e. by rewrite elem_of_elements.
  - intros e cs (e' & Heq & Hin)%list_elem_of_fmap.
    pose proof (f_equal fst Heq) as He. pose proof (f_equal snd Heq) as Hcs.
    cbn [fst snd] in He, Hcs. subst e' cs. clear Heq.
    apply elem_of_elements in Hin.
    destruct (proj1 (has_component_alt w e first)) as (m & Hm & _).
    { apply Hhas; [done|by left]. }
    rewrite Hm. change (default ∅ (Some m)) with m.
    eapply Forall2_impl; [apply component_list_full|].
    + intros T HT. destruct (proj1 (has_component_alt w e T)) as (m' & Hm' & ?);
        [by apply Hhas|]. by assert (m' = m) as -> by congruence.
    + intros T c Hc. unfold component_for_entity. by rewrite Hm.
Qed.

(** *** Every state a run can reach has a sound index *)

Lemma index_sound_ext w w' :
  _components w' = _components w → _entities w' = _entities w →
  index_sound w → index_sound w'.
Proof.
  intros Hcs Hes Hw e T. unfold in_type_entities.
  rewrite has_component_alt, Hcs, Hes, <- has_component_alt. apply Hw.
Qed.

Lemma remove_processor_db ty h w h' w' :
  remove_processor ty h w = Some (h', w') →
  _components w' = _components w ∧ _entities w' = _entities w ∧
  _next_entity_id w' = _next_entity_id w.
Proof.
  unfold remove_processor.
  destruct (remove_processor_loop _ _ _ _ _) as [[h1 ps]|]; cbn; [|done].
  by intros [= <- <-].
Qed.

Lemma exec_index_sound o m :
  index_sound (self m) → index_sound (self (exec o m)).
Proof.
  intros Hm.
  destruct o as [|e|e c|e T| | | |Ts|p prio|ty|]; cbn [exec self]; try done.
  - by apply index_sound_delete_entity.
  - by apply index_sound_add_component.
  - by apply index_sound_delete_component.
  - intros e T (s & Hs & _). cbn in Hs. by rewrite lookup_empty in Hs.
  - by apply index_sound_get_components.
  - destruct (remove_processor _ _ _) as [[h w]|] eqn:Hr; [|done].
    apply remove_processor_db in Hr as (? & ? & _).
    by apply (index_sound_ext (self m)).
Qed.

Lemma run_snoc os o m : run (os ++ [o]) m = exec o (run os m).
Proof. unfold run. by rewrite foldl_app. Qed.

Lemma reachable_index_sound w : reachable w → index_sound w.
Proof.
  intros (h & os & ->). induction os as [|o os IH] using rev_ind.
  - apply I1_index_sound, I1_new_world.
  - rewrite run_snoc. by apply exec_index_sound.
Qed.

(** X21: in every state a world can reach, for every non-empty list of
    component types that all have an entry in [_components], consuming
    [get_components] raises nothing and yields each entity of the
    intersection of the stored entity sets exactly once, and no other
    entity, each with the list of its components of the requested types,
    in the requested order.  (The stored sets are what earlier queries
    have left of them: see C1 below.) *)
Theorem get_components_yields_the_intersection (w : World) (Ts : list ComponentType) :
  reachable w → Ts ≠ [] →
  (∀ T, T ∈ Ts → is_Some (_components w !! T)) →
  ∃ items,
    (get_components Ts w).2 = (items, None) ∧
    NoDup items.*1 ∧
    (∀ e, e ∈ items.*1 ↔ ∀ T, T ∈ Ts → e ∈ type_entities w T) ∧
    (∀ e cs, (e, cs) ∈ items →
       Forall2 (λ T c, component_for_entity e T w = Some c) Ts cs).
Proof.
  intros Hw. apply get_components_on_sound_index. by apply reachable_index_sound.
Qed.

Lemma both_types_known (w : World) (A B : ComponentType) :
  is_Some (_components w !! A) → is_Some (_components w !! B) →
  ∀ T, T ∈ [A; B] → is_Some (_components w !! T).
Proof.
  intros HA HB T HT.
  apply elem_of_cons in HT as [->|HT]; [done|].
  apply elem_of_cons in HT as [->|HT]; [done|].
  by apply elem_of_nil in HT.
Qed.

Lemma get_components_yields_the_intersection_witness :
  reachable world_1AB_2A ∧
  ["ComponentA"; "ComponentB"] ≠ [] ∧
  (∀ T, T ∈ ["ComponentA"; "ComponentB"] → is_Some (_components world_1AB_2A !! T)) ∧
  ∃ items,
    (get_components ["ComponentA"; "ComponentB"] world_1AB_2A).2 = (items, None) ∧
    NoDup items.*1 ∧
    (∀ e, e ∈ items.*1 ↔
       ∀ T, T ∈ ["ComponentA"; "ComponentB"] → e ∈ type_entities world_1AB_2A T) ∧
    (∀ e cs, (e, cs) ∈ items →
       Forall2 (λ T c, component_for_entity e T world_1AB_2A = Some c)
         ["ComponentA"; "ComponentB"] cs).
Proof.
  assert (reachable world_1AB_2A) as Hreach.
  { exists heap0, [AddComponent 1 cA; AddComponent 1 cB; AddComponent 2 cA].
    reflexivity. }
  assert (["ComponentA"; "ComponentB"] ≠ []) as Hne by discriminate.
  assert (∀ T, T ∈ ["ComponentA"; "ComponentB"] →
               is_Some (_components world_1AB_2A !! T)) as Hknown.
  { apply both_types_known; vm_compute; eexists; reflexivity. }
  split; [exact Hreach|]. split; [exact Hne|]. split; [exact Hknown|].
  exact (get_components_yields_the_intersection world_1AB_2A
           ["ComponentA"; "ComponentB"] Hreach Hne Hknown).
Defined.

(** The scenario of the specification: entity 1 holds an A and a B,
    entity 2 an A. *)
Example get_components_scenario :
  (get_components ["ComponentA"; "ComponentB"] world_1AB_2A).2 = ([(1, [cA; cB])], None).
Proof. vm_compute. reflexivity. Qed.

(** C2, as the code has it: when every requested type has an entry,
    consuming [get_components(T1, ...)] rewrites the set stored under [T1]: it
    becomes the intersection, so every entity that is missing from the set
    of another requested type is gone from it; the other entries and
    [_entities] stay as they were.  If the world satisfied [I1] and such
    an entity held a [T1], the world no longer satisfies [I1].  In a state
    the world can reach, every entity that lacks a component of another
    requested type is such an entity. *)
Theorem get_components_narrows_the_stored_set
    (w : World) (T1 : ComponentType) (rest : list ComponentType) :
  (∀ T, T ∈ T1 :: rest → is_Some (_components w !! T)) →
  let w' := (get_components (T1 :: rest) w).1 in
  (∀ e, e ∈ type_entities w' T1 ↔ ∀ T, T ∈ T1 :: rest → e ∈ type_entities w T) ∧
  (∀ e T, T ∈ rest → e ∉ type_entities w T → e ∉ type_entities w' T1) ∧
  (∀ T, T ≠ T1 → _components w' !! T = _components w !! T) ∧
  _entities w' = _entities w ∧
  (I1 w →
   (∃ e T, T ∈ rest ∧ e ∈ type_entities w T1 ∧ e ∉ type_entities w T) →
   ¬ I1 w') ∧
  (reachable w →
   ∀ e T, T ∈ rest → component_for_entity e T w = None → e ∉ type_entities w' T1).
Proof.
  intros Hknown w'.
  destruct (Hknown T1) as [entities0 Hfirst]; [by left|].
  assert (∀ e, e ∈ type_entities w' T1 ↔ ∀ T, T ∈ T1 :: rest → e ∈ type_entities w T) as HA.
  { intros e. unfold w'.
    rewrite (get_components_known w T1 rest entities0 Hfirst)
      by (intros T ?; apply Hknown; by right).
    unfold type_entities at 1. cbn. rewrite lookup_insert_eq. cbn.
    by apply elem_of_narrowed_type_entities. }
  assert (∀ e T, T ∈ rest → e ∉ type_entities w T → e ∉ type_entities w' T1) as HB.
  { intros e T HT Hnot Hin. apply Hnot. apply (proj1 (HA e) Hin). by right. }
  assert (_entities w' = _entities w) as HD by apply get_components_entities.
  split; [exact HA|]. split; [exact HB|]. split; [|split; [exact HD|split]].
  - intros T HT. unfold w'.
    rewrite (get_components_known w T1 rest entities0 Hfirst)
      by (intros T' ?; apply Hknown; by right).
    cbn. by rewrite lookup_insert_ne.
  - intros Hw (e & T & HT & Hin & Hnot) Hw'.
    apply (HB e T HT Hnot).
    apply elem_of_type_entities, Hw', has_component_alt. rewrite HD.
    by apply has_component_alt, Hw, elem_of_type_entities.
  - intros Hw e T HT Hnone. apply (HB e T HT).
    intros Hin%elem_of_type_entities%(reachable_index_sound w Hw).
    unfold has_component in Hin. rewrite Hnone in Hin. by destruct Hin.
Qed.

Lemma get_components_narrows_the_stored_set_witness :
  (∀ T, T ∈ ["ComponentA"; "ComponentB"] → is_Some (_components world_1A_2B !! T)) ∧
  I1 world_1A_2B ∧
  1 ∈ type_entities world_1A_2B "ComponentA" ∧
  (1 ∉ type_entities (get_components ["ComponentA"; "ComponentB"] world_1A_2B).1 "ComponentA") ∧
  ¬ I1 (get_components ["ComponentA"; "ComponentB"] world_1A_2B).1.
Proof.
  assert (∀ T, T ∈ ["ComponentA"; "ComponentB"] →
               is_Some (_components world_1A_2B !! T)) as Hknown.
  { apply both_types_known; vm_compute; eexists; reflexivity. }
  assert (I1 world_1A_2B) as HI1
    by (do 2 apply I1_add_component; apply I1_new_world).
  assert (type_entities world_1A_2B "ComponentA" = {[1]}) as HA
    by (vm_compute; reflexivity).
  assert (type_entities world_1A_2B "ComponentB" = {[2]}) as HB
    by (vm_compute; reflexivity).
  assert (1 ∈ type_entities world_1A_2B "ComponentA") as Hin
    by (rewrite HA; set_solver).
  assert (1 ∉ type_entities world_1A_2B "ComponentB") as Hnot
    by (rewrite HB; set_solver).
  pose proof (get_components_narrows_the_stored_set world_1A_2B
                "ComponentA" ["ComponentB"] Hknown) as (_ & Hgone & _ & _ & Hbreak & _).
  split; [exact Hknown|]. split; [exact HI1|]. split; [exact Hin|]. split.
  - apply (Hgone 1 "ComponentB"); [by left|exact Hnot].
  - apply Hbreak; [exact HI1|].
    exists 1, "ComponentB". split; [by left|]. split; [exact Hin|exact Hnot].
Defined.

(** ** Processors *)

Section sort_by_key.
Context {A : Type} (key : A → Z).

Lemma insert_by_key_Permutation x l : insert_by_key key x l ≡ₚ x :: l.
Proof.
  induction l as [|y l IH]; cbn; [done|].
  case_decide; [done|]. by rewrite IH, Permutation_swap.
Qed.

Lemma sort_by_key_Permutation l : sort_by_key key l ≡ₚ l.
Proof.
  induction l as [|x l IH]; cbn; [done|].
  by rewrite insert_by_key_Permutation, IH.
Qed.

Lemma insert_by_key_sorted x l :
  StronglySorted (λ a b, key a ≤ key b) l →
  StronglySorted (λ a b, key a ≤ key b) (insert_by_key key x l).
Proof.
  induction l as [|y l IH]; intros Hl; cbn.
  - repeat constructor.
  - apply StronglySorted_inv in Hl as [Hl Hy]. case_decide as Hxy.
    + constructor; [by constructor|].
      constructor; [done|]. eapply Forall_impl; [done|]. cbn. lia.
    + constructor; [by apply IH|].
      rewrite insert_by_key_Permutation. constructor; [lia|done].
Qed.

Lemma sort_by_key_sorted l :
  StronglySorted (λ a b, key a ≤ key b) (sort_by_key key l).
Proof.
  induction l as [|x l IH]; cbn; [constructor|by apply insert_by_key_sorted].
Qed.

(** Stability: among the elements of one key nothing moves. *)
Lemma insert_by_key_filter x l k :
  filter (λ a, key a = k) (insert_by_key key x l) = filter (λ a, key a = k) (x :: l).
Proof.
  induction l as [|y l IH]; cbn; [done|].
  case_decide as Hxy; [done|].
  rewrite (filter_cons _ y), IH, !filter_cons.
  repeat case_decide; try done; lia.
Qed.

Lemma sort_by_key_filter l k :
  filter (λ a, key a = k) (sort_by_key key l) = filter (λ a, key a = k) l.
Proof.
  induction l as [|x l IH]; cbn; [done|].
  by rewrite insert_by_key_filter, !filter_cons, IH.
Qed.
End sort_by_key.

Lemma StronglySorted_impl {A} (R1 R2 : A → A → Prop) (l : list A) :
  (∀ a b, R1 a b → R2 a b) → StronglySorted R1 l → StronglySorted R2 l.
Proof.
  intros HR. induction 1 as [|a l Hl IH Ha]; constructor; [done|].
  eapply Forall_impl; [done|]. apply HR.
Qed.

Lemma filter_ext_elem {A} (P Q : A → Prop)
    `{!∀ a, Decision (P a), !∀ a, Decision (Q a)} (l : list A) :
  (∀ a, a ∈ l → (P a ↔ Q a)) → filter P l = filter Q l.
Proof.
  induction l as [|a l IH]; intros HPQ; [done|].
  rewrite !filter_cons, IH by (intros b ?; apply HPQ; by right).
  destruct (HPQ a) as [H1 H2]; [by left|].
  repeat case_decide; naive_solver.
Qed.

Lemma process_calls w : process w = _processors w.
Proof.
  unfold process.
  assert (∀ (l acc : list nat), foldl (λ calls p, calls ++ [p]) acc l = acc ++ l) as Hfold.
  { induction l as [|p l IH]; intros acc; cbn; [by rewrite app_nil_r|].
    by rewrite IH, <- (assoc_L (++)). }
  by rewrite Hfold.
Qed.

Lemma add_processor_priority p prio h w q :
  priority ((add_processor p prio h w).1 q) = if decide (q = p) then prio else priority (h q).
Proof. cbn. unfold set_world, set_priority. by repeat case_decide. Qed.

Lemma add_processor_processors p prio h w :
  _processors (add_processor p prio h w).2 =
    sort_by_key (λ q, - priority ((add_processor p prio h w).1 q)) (_processors w ++ [p]).
Proof. done. Qed.

Lemma add_processors_snoc calls c h w :
  add_processors (calls ++ [c]) h w =
    add_processor c.1 c.2 (add_processors calls h w).1 (add_processors calls h w).2.
Proof. unfold add_processors. by rewrite foldl_app. Qed.

Lemma add_processors_distinct h w calls :
  _processors w = [] → NoDup calls.*1 →
  _processors (add_processors calls h w).2 ≡ₚ calls.*1 ∧
  (∀ p prio, (p, prio) ∈ calls → priority ((add_processors calls h w).1 p) = prio) ∧
  descending (add_processors calls h w).1 (_processors (add_processors calls h w).2) ∧
  keeps_insertion_order (add_processors calls h w).1 calls.*1
    (_processors (add_processors calls h w).2).
Proof.
  intros Hw. induction calls as [|[p prio] calls IH] using rev_ind; intros Hnd.
  - cbn. rewrite Hw. split; [done|]. split; [by intros ? ? ?%elem_of_nil|].
    split; [constructor|done].
  - rewrite fmap_app in Hnd. cbn in Hnd.
    apply NoDup_app in Hnd as (Hnd & Hp & _).
    assert (p ∉ calls.*1) as Hfresh by (intros Hin; apply (Hp p Hin); by left).
    destruct (IH Hnd) as (Hperm & Hprio & Hdesc & Hkeep). clear IH.
    rewrite add_processors_snoc. cbn [fst snd].
    set (h1 := (add_processors calls h w).1) in *.
    set (w1 := (add_processors calls h w).2) in *.
    set (h2 := (add_processor p prio h1 w1).1).
    assert (∀ q, priority (h2 q) = if decide (q = p) then prio else priority (h1 q)) as Hh2
      by (intros q; apply add_processor_priority).
    assert (∀ q, q ∈ calls.*1 → priority (h2 q) = priority (h1 q)) as Hold.
    { intros q Hq. rewrite Hh2. case_decide; [by subst|done]. }
    rewrite add_processor_processors. fold h2.
    split; [|split; [|split]].
    + by rewrite sort_by_key_Permutation, Hperm, fmap_app.
    + intros q pr [Hin|Hin]%elem_of_app.
      * rewrite Hold; [by apply Hprio|].
        apply list_elem_of_fmap. by exists (q, pr).
      * apply list_elem_of_singleton in Hin as [= -> ->].
        rewrite Hh2. by rewrite decide_True.
    + eapply StronglySorted_impl; [|apply sort_by_key_sorted]. cbn. intros a b. lia.
    + intros k. rewrite fmap_app. cbn [fmap list_fmap].
      rewrite (filter_ext_elem _ (λ a, - priority (h2 a) = - k)) by (intros; lia).
      rewrite (sort_by_key_filter (λ q, - priority (h2 q))).
      rewrite (filter_ext_elem (λ a, - priority (h2 a) = - k) (λ a, priority (h2 a) = k))
        by (intros; lia).
      rewrite !filter_app. f_equal.
      rewrite (filter_ext_elem _ (λ a, priority (h1 a) = k) (_processors w1)).
      2:{ intros a Ha. rewrite Hold; [done|]. by rewrite <- Hperm. }
      rewrite (Hkeep k).
      apply filter_ext_elem. intros a Ha. by rewrite Hold.
Qed.

(** C8, as the code has it: after any sequence of [add_processor] calls
    on a world without processors, in which no processor instance is added
    twice, the processor list holds exactly the added processors, each
    with the priority it was added with, in descending order of priority,
    those of equal priority in the order in which they were added; and
    [process] calls each of them once, in the order of the list. *)
Theorem add_processor_keeps_priority_order
    (h : Heap) (w : World) (calls : list (ProcessorRef * Z)) :
  _processors w = [] → NoDup calls.*1 →
  _processors (add_processors calls h w).2 ≡ₚ calls.*1 ∧
  (∀ p prio, (p, prio) ∈ calls → priority ((add_processors calls h w).1 p) = prio) ∧
  descending (add_processors calls h w).1 (_processors (add_processors calls h w).2) ∧
  keeps_insertion_order (add_processors calls h w).1 calls.*1
    (_processors (add_processors calls h w).2) ∧
  process (add_processors calls h w).2 = _processors (add_processors calls h w).2 ∧
  NoDup (process (add_processors calls h w).2).
Proof.
  intros Hw Hnd.
  destruct (add_processors_distinct h w calls Hw Hnd) as (Hperm & Hprio & Hdesc & Hkeep).
  repeat (split; [done|]). split; [apply process_calls|].
  by rewrite process_calls, Hperm.
Qed.

Lemma add_processor_keeps_priority_order_witness :
  _processors new_world = [] ∧
  NoDup [(0%nat, 5); (1%nat, 5)].*1 ∧
  _processors (add_processors [(0%nat, 5); (1%nat, 5)] heap0 new_world).2 = [0; 1]%nat ∧
  process (add_processors [(0%nat, 5); (1%nat, 5)] heap0 new_world).2 = [0; 1]%nat ∧
  keeps_insertion_order (add_processors [(0%nat, 5); (1%nat, 5)] heap0 new_world).1
    [(0%nat, 5); (1%nat, 5)].*1
    (_processors (add_processors [(0%nat, 5); (1%nat, 5)] heap0 new_world).2).
Proof.
  assert (_processors new_world = []) as Hw by reflexivity.
  assert (NoDup [(0%nat, 5); (1%nat, 5)].*1) as Hnd.
  { cbn. apply NoDup_cons. split; [|apply NoDup_singleton].
    intros Hin%list_elem_of_singleton. discriminate. }
  pose proof (add_processor_keeps_priority_order heap0 new_world
                [(0%nat, 5); (1%nat, 5)] Hw Hnd) as (_ & _ & _ & Hkeep & _ & _).
  split; [exact Hw|]. split; [exact Hnd|].
  split; [vm_compute; reflexivity|]. split; [vm_compute; reflexivity|].
  exact Hkeep.
Defined.

(** C8 as stated fails: a processor added a second time has its priority
    overwritten where it already stands in the list.  Processor 0 is added
    first, processor 1 second, all end with priority 5, and the list is
    [1; 0; 0]: 1 stands before 0, and [process] calls 0 twice. *)
Lemma add_processor_again_breaks_insertion_order :
  _processors (add_processors [(0%nat, 1); (1%nat, 5); (0%nat, 5)] heap0 new_world).2
    = [1; 0; 0]%nat ∧
  ¬ keeps_insertion_order
      (add_processors [(0%nat, 1); (1%nat, 5); (0%nat, 5)] heap0 new_world).1
      [(0%nat, 1); (1%nat, 5); (0%nat, 5)].*1
      (_processors (add_processors [(0%nat, 1); (1%nat, 5); (0%nat, 5)] heap0 new_world).2) ∧
  ¬ NoDup (process (add_processors [(0%nat, 1); (1%nat, 5); (0%nat, 5)] heap0 new_world).2).
Proof.
  split; [vm_compute; reflexivity|]. split.
  - intros Hkeep. specialize (Hkeep 5). vm_compute in Hkeep. discriminate.
  - rewrite process_calls.
    assert (_processors (add_processors [(0%nat, 1); (1%nat, 5); (0%nat, 5)]
                           heap0 new_world).2 = [1; 0; 0]%nat) as ->
      by (vm_compute; reflexivity).
    intros Hnd. apply NoDup_cons in Hnd as [_ Hnd].
    apply NoDup_cons in Hnd as [Hin _]. apply Hin. by left.
Qed.

(** ** The invariants *)

(** Each of the five mutating calls keeps [I1] and [I2]. *)
Lemma I1_ext w w' :
  _components w' = _components w → _entities w' = _entities w → I1 w → I1 w'.
Proof.
  intros Hcs Hes Hw e T. unfold in_type_entities.
  rewrite has_component_alt, Hcs, Hes, <- has_component_alt. apply Hw.
Qed.

Lemma mutating_preserves_I1 o m :
  mutating o = true → I1 (self m) → I1 (self (exec o m)).
Proof.
  intros Ho Hm.
  destruct o as [|e|e c|e T| | | |Ts|p prio|ty|]; try discriminate; cbn [exec self].
  - by apply (I1_ext (self m)).
  - by apply I1_delete_entity.
  - by apply I1_add_component.
  - by apply I1_delete_component.
  - apply (I1_ext new_world); [done..|apply I1_new_world].
Qed.

Lemma mutating_preserves_I2 o m :
  mutating o = true → I2 (self m) → I2 (self (exec o m)).
Proof.
  intros Ho Hm.
  destruct o as [|e|e c|e T| | | |Ts|p prio|ty|]; try discriminate; cbn [exec self].
  - done.
  - by apply I2_delete_entity.
  - by apply I2_add_component.
  - by apply I2_delete_component.
  - apply I2_new_world.
Qed.

(** Hence both hold in every state reached by mutating calls alone. *)
Lemma mutating_run_invariants h os :
  Forall (λ o, mutating o = true) os →
  I1 (self (run os (mkMachine h new_world))) ∧
  I2 (self (run os (mkMachine h new_world))).
Proof.
  induction os as [|o os IH] using rev_ind; intros Hos.
  - split; [apply I1_new_world|apply I2_new_world].
  - apply Forall_app in Hos as [Hos Ho].
    apply Forall_cons in Ho as [Ho _].
    destruct (IH Hos) as [H1 H2]. rewrite run_snoc.
    split; [by apply mutating_preserves_I1|by apply mutating_preserves_I2].
Qed.

(** C4: [I1] does not hold in every reachable state after a mutating
    call.  After [add_component(1, A())], [add_component(2, B())], a
    consumed [get_components(A, B)] and [create_entity()], entity 1 still
    has its A in [_entities] and is no longer in the set stored for A. *)
Theorem I1_fails_after_consumed_query :
  reachable world_after_query ∧
  has_component world_after_query 1 "ComponentA" ∧
  ¬ in_type_entities world_after_query 1 "ComponentA" ∧
  ¬ I1 world_after_query.
Proof.
  assert (has_component world_after_query 1 "ComponentA") as Hhas
    by (exists cA; vm_compute; reflexivity).
  assert (¬ in_type_entities world_after_query 1 "ComponentA") as Hnot.
  { assert (_components world_after_query !! "ComponentA" = Some ∅) as Hs
      by (vm_compute; reflexivity).
    intros (s & Hs' & Hin). rewrite Hs in Hs'. injection Hs' as <-. set_solver. }
  split; [by exists heap0, query_then_create|].
  split; [exact Hhas|]. split; [exact Hnot|].
  intros HI1. by apply Hnot, HI1.
Qed.

(** C9: [I2] does not hold in every reachable state after a mutating
    call.  After the same calls the type A is still a key of
    [_components], and the set stored under it is empty. *)
Theorem I2_fails_after_consumed_query :
  reachable world_after_query ∧
  _components world_after_query !! "ComponentA" = Some ∅ ∧
  ¬ I2 world_after_query.
Proof.
  assert (_components world_after_query !! "ComponentA" = Some ∅) as Hs
    by (vm_compute; reflexivity).
  split; [by exists heap0, query_then_create|]. split; [exact Hs|].
  intros [Hcs _]. by apply (Hcs "ComponentA" ∅).
Qed.

(** * Further properties of the code *)

(** ** Storage: lookups after an update *)

Lemma component_for_entity_add_component w e c e' T :
  component_for_entity e' T (add_component e c w) =
    if decide (e' = e ∧ T = component_class c) then Some c
    else component_for_entity e' T w.
Proof.
  unfold component_for_entity. cbn.
  destruct (decide (e' = e)) as [->|He].
  - rewrite lookup_insert_eq. cbn. rewrite lookup_insert.
    destruct (decide (component_class c = T)) as [<-|HT].
    + by rewrite decide_True.
    + rewrite decide_False by (intros [_ ?]; congruence).
      destruct (_entities w !! e); cbn; [done|apply lookup_empty].
  - rewrite lookup_insert_ne by done.
    by rewrite decide_False by (by intros [? _]).
Qed.

(** X1: [add_component] followed by a lookup.  The entity now has the
    instance under its class, and is in the set of that class; every other
    lookup and every other set is as before. *)
Theorem add_component_then_lookup (w : World) (e : EntityId) (c : Component)
    (e' : EntityId) (T : ComponentType) :
  component_for_entity e' T (add_component e c w) =
    (if decide (e' = e ∧ T = component_class c) then Some c
     else component_for_entity e' T w) ∧
  type_entities (add_component e c w) T =
    (if decide (T = component_class c) then {[e]} ∪ type_entities w T
     else type_entities w T).
Proof.
  split; [apply component_for_entity_add_component|].
  unfold type_entities. cbn. rewrite lookup_insert.
  destruct (decide (component_class c = T)) as [<-|HT].
  - by rewrite decide_True.
  - by rewrite decide_False by congruence.
Qed.

(** X2: a second [add_component] of the same class for the same entity
    replaces the first: the world is the one the second call alone would
    have given. *)
Theorem add_component_replaces (w : World) (e : EntityId) (c1 c2 : Component) :
  component_class c1 = component_class c2 →
  add_component e c2 (add_component e c1 w) = add_component e c2 w.
Proof.
  intros Hclass. unfold add_component. cbn. rewrite Hclass.
  rewrite !lookup_insert_eq. cbn. rewrite !insert_insert_eq.
  f_equal. f_equal. set_solver.
Qed.

Lemma add_component_replaces_witness :
  component_class cA = component_class (mkComponent "ComponentA" 7) ∧
  add_component 1 (mkComponent "ComponentA" 7) (add_component 1 cA world_1A_2B)
    = add_component 1 (mkComponent "ComponentA" 7) world_1A_2B.
Proof.
  assert (component_class cA = component_class (mkComponent "ComponentA" 7)) as Hclass
    by reflexivity.
  split; [exact Hclass|].
  exact (add_component_replaces world_1A_2B 1 cA (mkComponent "ComponentA" 7) Hclass).
Defined.

Lemma type_entities_discard_and_prune e T s cs T' :
  cs !! T = Some s →
  default ∅ (discard_and_prune e T s cs !! T') =
    if decide (T' = T) then s ∖ {[e]} else default ∅ (cs !! T').
Proof.
  intros Hs. unfold discard_and_prune.
  destruct (decide (T' = T)) as [->|Hne].
  - case_decide as Hempty; [by rewrite lookup_delete_eq|by rewrite lookup_insert_eq].
  - case_decide; [by rewrite lookup_delete_ne|by rewrite lookup_insert_ne].
Qed.

Lemma component_for_entity_delete_component w e T e' T' :
  component_for_entity e' T' (delete_component e T w) =
    if decide (e' = e ∧ T' = T) then None else component_for_entity e' T' w.
Proof.
  unfold component_for_entity. cbn.
  destruct (_entities w !! e) as [m|] eqn:Hm.
  - destruct (m !! T) as [c|] eqn:Hc.
    + case_decide as Hempty.
      { rewrite lookup_delete. destruct (decide (e = e')) as [<-|He].
        - rewrite Hm. cbn. case_decide as Hd; [done|].
          assert (T' ≠ T) as HT by (intros ->; by apply Hd).
          rewrite <- (lookup_delete_ne m T T') by done.
          by rewrite Hempty, lookup_empty.
        - by rewrite decide_False by (intros [? _]; congruence). }
      { rewrite lookup_insert. destruct (decide (e = e')) as [<-|He].
        - rewrite Hm. cbn. rewrite lookup_delete.
          destruct (decide (T = T')) as [<-|HT].
          + by rewrite decide_True.
          + by rewrite decide_False by (intros [_ ?]; congruence).
        - by rewrite decide_False by (intros [? _]; congruence). }
    + case_decide as Hd; [|done]. destruct Hd as [-> ->]. by rewrite Hm.
  - case_decide as Hd; [|done]. destruct Hd as [-> ->]. by rewrite Hm.
Qed.

(** X3: [delete_component] followed by a lookup.  The entity no longer has
    a component of the type and is no longer in the set of the type; every
    other lookup and every other set is as before. *)
Theorem delete_component_then_lookup (w : World) (e : EntityId) (T : ComponentType)
    (e' : EntityId) (T' : ComponentType) :
  component_for_entity e' T' (delete_component e T w) =
    (if decide (e' = e ∧ T' = T) then None else component_for_entity e' T' w) ∧
  type_entities (delete_component e T w) T' =
    (if decide (T' = T) then type_entities w T ∖ {[e]} else type_entities w T').
Proof.
  split; [apply component_for_entity_delete_component|].
  unfold type_entities. cbn.
  destruct (_components w !! T) as [s|] eqn:Hs.
  - by apply type_entities_discard_and_prune.
  - case_decide as HT; [|done]. subst T'. rewrite Hs. cbn. set_solver.
Qed.

(** ** Storage: calls that leave the world as it was *)

(** X4: in a world without empty sets, [delete_component] for an
    association that does not exist changes nothing. *)
Theorem delete_component_absent_is_noop (w : World) (e : EntityId) (T : ComponentType) :
  no_empty_set (_components w) →
  e ∉ type_entities w T →
  component_for_entity e T w = None →
  delete_component e T w = w.
Proof.
  intros Hne Hnot Hnone. unfold delete_component.
  etransitivity; [|apply (World_eta w)]. f_equal.
  - unfold type_entities in Hnot.
    destruct (_components w !! T) as [s|] eqn:Hs; [|done]. cbn in Hnot.
    unfold discard_and_prune.
    assert (s ∖ {[e]} = s) as -> by set_solver.
    rewrite decide_False by by eapply Hne. by apply insert_id.
  - unfold component_for_entity in Hnone.
    destruct (_entities w !! e) as [m|]; [|done]. cbn in Hnone. by rewrite Hnone.
Qed.

Lemma delete_component_absent_is_noop_witness :
  no_empty_set (_components world_1A_2B) ∧
  (1 ∉ type_entities world_1A_2B "ComponentB") ∧
  component_for_entity 1 "ComponentB" world_1A_2B = None ∧
  delete_component 1 "ComponentB" world_1A_2B = world_1A_2B.
Proof.
  assert (no_empty_set (_components world_1A_2B)) as Hne.
  { apply (I2_add_component 2 cB), (I2_add_component 1 cA), I2_new_world. }
  assert (1 ∉ type_entities world_1A_2B "ComponentB") as Hnot.
  { assert (type_entities world_1A_2B "ComponentB" = {[2]}) as ->
      by (vm_compute; reflexivity).
    set_solver. }
  assert (component_for_entity 1 "ComponentB" world_1A_2B = None) as Hnone
    by (vm_compute; reflexivity).
  split; [exact Hne|]. split; [exact Hnot|]. split; [exact Hnone|].
  exact (delete_component_absent_is_noop world_1A_2B 1 "ComponentB" Hne Hnot Hnone).
Defined.

(** X5: in a world without empty sets and dicts, adding a component that
    the entity did not have and deleting it again gives the world back. *)
Theorem add_then_delete_component (w : World) (e : EntityId) (c : Component) :
  I2 w →
  e ∉ type_entities w (component_class c) →
  component_for_entity e (component_class c) w = None →
  delete_component e (component_class c) (add_component e c w) = w.
Proof.
  intros [Hcs Hes] Hnot Hnone. unfold delete_component, add_component. cbn.
  rewrite !lookup_insert_eq. cbn.
  etransitivity; [|apply (World_eta w)]. f_equal.
  - unfold type_entities in Hnot. unfold discard_and_prune.
    assert (({[e]} ∪ default ∅ (_components w !! component_class c)) ∖ {[e]}
            = default ∅ (_components w !! component_class c)) as -> by set_solver.
    case_decide as Hempty.
    + rewrite delete_insert_eq. apply delete_id.
      destruct (_components w !! component_class c) as [s|] eqn:Hs; [|done].
      cbn in Hempty. subst s. by destruct (Hcs _ _ Hs).
    + rewrite insert_insert_eq. apply insert_id.
      by destruct (_components w !! component_class c).
  - unfold component_for_entity in Hnone.
    assert (default ∅ (_entities w !! e) !! component_class c = None) as Hm.
    { destruct (_entities w !! e); cbn in *; [done|apply lookup_empty]. }
    rewrite delete_insert_eq, (delete_id _ _ Hm).
    case_decide as Hempty.
    + rewrite delete_insert_eq. apply delete_id.
      destruct (_entities w !! e) as [m|] eqn:He; [|done].
      cbn in Hempty. subst m. by destruct (Hes _ _ He).
    + rewrite insert_insert_eq. apply insert_id.
      by destruct (_entities w !! e).
Qed.

Lemma add_then_delete_component_witness :
  I2 world_1A_2B ∧
  (1 ∉ type_entities world_1A_2B (component_class cB)) ∧
  component_for_entity 1 (component_class cB) world_1A_2B = None ∧
  delete_component 1 (component_class cB) (add_component 1 cB world_1A_2B) = world_1A_2B.
Proof.
  assert (I2 world_1A_2B) as HI2.
  { apply (I2_add_component 2 cB), (I2_add_component 1 cA), I2_new_world. }
  assert (1 ∉ type_entities world_1A_2B (component_class cB)) as Hnot.
  { assert (type_entities world_1A_2B (component_class cB) = {[2]}) as ->
      by (vm_compute; reflexivity).
    set_solver. }
  assert (component_for_entity 1 (component_class cB) world_1A_2B = None) as Hnone
    by (vm_compute; reflexivity).
  split; [exact HI2|]. split; [exact Hnot|]. split; [exact Hnone|].
  exact (add_then_delete_component world_1A_2B 1 cB HI2 Hnot Hnone).
Defined.

(** ** Storage: [delete_entity] and the invariants *)

(** X6: in a world that satisfies [I1], [delete_entity] raises nothing,
    leaves the entity without any component and outside every set, and
    leaves the components and memberships of all other entities alone. *)
Theorem delete_entity_cascades (w : World) (e : EntityId) :
  I1 w →
  (delete_entity e w).2 = None ∧
  (∀ T, component_for_entity e T (delete_entity e w).1 = None ∧
        e ∉ type_entities (delete_entity e w).1 T) ∧
  (∀ e' T, e' ≠ e →
     component_for_entity e' T (delete_entity e w).1 = component_for_entity e' T w ∧
     (e' ∈ type_entities (delete_entity e w).1 T ↔ e' ∈ type_entities w T)).
Proof.
  intros Hw. pose proof (I1_delete_entity_ok e w Hw) as Hok.
  pose proof (I1_delete_entity e w Hw) as Hw'.
  destruct (delete_entity_unfold e w) as (Hcs & Hr & Hes).
  rewrite Hr in Hok. rewrite Hok in Hes.
  assert (∀ T, component_for_entity e T (delete_entity e w).1 = None) as Hgone.
  { intros T. unfold component_for_entity. by rewrite Hes, lookup_delete_eq. }
  split; [by rewrite Hr|]. split.
  - intros T. split; [done|].
    intros Hin%elem_of_type_entities%Hw'. unfold has_component in Hin.
    rewrite Hgone in Hin. by destruct Hin.
  - intros e' T Hne. split.
    + unfold component_for_entity. by rewrite Hes, lookup_delete_ne.
    + rewrite !elem_of_type_entities. unfold in_type_entities. rewrite Hcs.
      by apply delete_entity_loop_holds_other.
Qed.

Lemma delete_entity_cascades_witness :
  I1 world_1AB_2A ∧
  (delete_entity 1 world_1AB_2A).2 = None ∧
  component_for_entity 1 "ComponentA" (delete_entity 1 world_1AB_2A).1 = None ∧
  (2 ∈ type_entities (delete_entity 1 world_1AB_2A).1 "ComponentA"
   ↔ 2 ∈ type_entities world_1AB_2A "ComponentA").
Proof.
  assert (I1 world_1AB_2A) as HI1
    by (do 3 apply I1_add_component; apply I1_new_world).
  pose proof (delete_entity_cascades world_1AB_2A 1 HI1) as (Hok & Hgone & Hother).
  split; [exact HI1|]. split; [exact Hok|].
  split; [exact (proj1 (Hgone "ComponentA"))|].
  apply (Hother 2 "ComponentA"). discriminate.
Defined.

(** X7: each of the five storage operations keeps [I1] and [I2]: from a
    world that satisfies both, it leads to a world that satisfies both. *)
Theorem storage_operations_keep_invariants (w : World) :
  I1 w → I2 w →
  (I1 (create_entity w).1 ∧ I2 (create_entity w).1) ∧
  (∀ e c, I1 (add_component e c w) ∧ I2 (add_component e c w)) ∧
  (∀ e T, I1 (delete_component e T w) ∧ I2 (delete_component e T w)) ∧
  (∀ e, I1 (delete_entity e w).1 ∧ I2 (delete_entity e w).1) ∧
  (I1 (clear_database w) ∧ I2 (clear_database w)).
Proof.
  intros H1 H2.
  split; [split; [by apply (I1_ext w)|exact H2]|].
  split; [intros e c; split; [by apply I1_add_component|by apply I2_add_component]|].
  split; [intros e T; split; [by apply I1_delete_component|by apply I2_delete_component]|].
  split; [intros e; split; [by apply I1_delete_entity|by apply I2_delete_entity]|].
  split; [|apply I2_new_world].
  apply (I1_ext new_world); [done..|apply I1_new_world].
Qed.

Lemma storage_operations_keep_invariants_witness :
  I1 world_1A_2B ∧ I2 world_1A_2B ∧
  I1 (delete_entity 1 world_1A_2B).1 ∧ I2 (delete_entity 1 world_1A_2B).1.
Proof.
  assert (I1 world_1A_2B) as H1
    by (do 2 apply I1_add_component; apply I1_new_world).
  assert (I2 world_1A_2B) as H2
    by (do 2 apply I2_add_component; apply I2_new_world).
  pose proof (storage_operations_keep_invariants world_1A_2B H1 H2)
    as (_ & _ & _ & Hdel & _).
  split; [exact H1|]. split; [exact H2|]. exact (Hdel 1).
Defined.

(** X8: whatever calls were made on a world, queries and calls that
    raised included, every entity in the set of a type has a component of
    that type. *)
Theorem indexed_entity_has_component (w : World) (e : EntityId) (T : ComponentType) :
  reachable w → e ∈ type_entities w T →
  is_Some (component_for_entity e T w).
Proof.
  intros Hw He. apply (reachable_index_sound w Hw). by apply elem_of_type_entities.
Qed.

Lemma indexed_entity_has_component_witness :
  reachable world_after_query ∧
  2 ∈ type_entities world_after_query "ComponentB" ∧
  is_Some (component_for_entity 2 "ComponentB" world_after_query).
Proof.
  assert (reachable world_after_query) as Hw by (by exists heap0, query_then_create).
  assert (2 ∈ type_entities world_after_query "ComponentB") as Hin.
  { assert (type_entities world_after_query "ComponentB" = {[2]}) as ->
      by (vm_compute; reflexivity).
    set_solver. }
  split; [exact Hw|]. split; [exact Hin|].
  exact (indexed_entity_has_component world_after_query 2 "ComponentB" Hw Hin).
Defined.

(** ** Every stored instance sits under its own class *)

Lemma well_classed_ext w w' :
  _entities w' = _entities w → well_classed w → well_classed w'.
Proof.
  intros Hes Hw e T c. unfold component_for_entity. rewrite Hes. apply Hw.
Qed.

Lemma well_classed_delete e w es :
  es = delete e (_entities w) → well_classed w →
  ∀ e' T c, (m ← es !! e'; m !! T) = Some c → component_class c = T.
Proof.
  intros -> Hw e' T c. rewrite lookup_delete. case_decide; [done|]. apply Hw.
Qed.

Lemma well_classed_new_world : well_classed new_world.
Proof.
  intros e T c. unfold component_for_entity.
  change (_entities new_world) with (∅ : gmap Z (gmap string Component)).
  by rewrite lookup_empty.
Qed.

Lemma exec_well_classed o m :
  well_classed (self m) → well_classed (self (exec o m)).
Proof.
  intros Hm.
  destruct o as [|e|e c|e T| | | |Ts|p prio|ty|]; cbn [exec self]; try done.
  - intros e' T c. unfold component_for_entity.
    destruct (delete_entity_unfold e (self m)) as (_ & _ & ->).
    destruct (delete_entity_loop _ _ _).2; [apply Hm|].
    by apply (well_classed_delete e (self m)).
  - intros e' T c'. rewrite component_for_entity_add_component.
    case_decide as Hd; [|apply Hm]. destruct Hd as [_ ->]. by intros [= ->].
  - intros e' T' c. rewrite component_for_entity_delete_component.
    case_decide; [intros [=]|apply Hm].
  - apply (well_classed_ext (self m)); [apply get_components_entities|done].
  - destruct (remove_processor _ _ _) as [[h w]|] eqn:Hr; [|done].
    apply remove_processor_db in Hr as (_ & ? & _).
    by apply (well_classed_ext (self m)).
Qed.

Lemma reachable_well_classed w : reachable w → well_classed w.
Proof.
  intros (h & os & ->). induction os as [|o os IH] using rev_ind.
  - apply well_classed_new_world.
  - rewrite run_snoc. by apply exec_well_classed.
Qed.

(** X9: whatever calls were made on a world, the instance that
    [component_for_entity] returns for a type is an instance of that
    type. *)
Theorem component_for_entity_returns_an_instance_of_the_type
    (w : World) (e : EntityId) (T : ComponentType) (c : Component) :
  reachable w → component_for_entity e T w = Some c → component_class c = T.
Proof. intros Hw. by apply reachable_well_classed. Qed.

Lemma component_for_entity_returns_an_instance_of_the_type_witness :
  reachable world_1AB_2A ∧
  component_for_entity 1 "ComponentB" world_1AB_2A = Some cB ∧
  component_class cB = "ComponentB".
Proof.
  assert (reachable world_1AB_2A) as Hw.
  { exists heap0, [AddComponent 1 cA; AddComponent 1 cB; AddComponent 2 cA].
    reflexivity. }
  assert (component_for_entity 1 "ComponentB" world_1AB_2A = Some cB) as Hc
    by (vm_compute; reflexivity).
  split; [exact Hw|]. split; [exact Hc|].
  exact (component_for_entity_returns_an_instance_of_the_type
           world_1AB_2A 1 "ComponentB" cB Hw Hc).
Defined.

(** ** get_component *)

Lemma get_component_loop_ok entitydb T es :
  (∀ e, e ∈ es → is_Some (entitydb !! e ≫= (λ m, m !! T))) →
  ∃ items,
    get_component_loop entitydb T es = (items, None) ∧
    items.*1 = es ∧
    ∀ e c, (e, c) ∈ items → entitydb !! e ≫= (λ m, m !! T) = Some c.
Proof.
  induction es as [|e es IH]; intros Hall.
  - exists []. split; [done|]. split; [done|]. by intros ? ? ?%elem_of_nil.
  - destruct IH as (items & Hloop & Hfst & Hitems).
    { intros e' ?. apply Hall. by right. }
    destruct (Hall e) as [c Hc]; [by left|].
    exists ((e, c) :: items). cbn. rewrite Hc, Hloop.
    split; [done|]. split; [by rewrite Hfst|].
    intros e' c' [Heq|Hin]%elem_of_cons; [|by apply Hitems].
    by injection Heq as -> ->.
Qed.

(** X10: whatever calls were made on a world, consuming [get_component]
    for a type raises nothing and yields each entity of the set of that
    type exactly once, and no other, each with its component of that type,
    which is an instance of the type. *)
Theorem get_component_yields_the_holders (w : World) (T : ComponentType) :
  reachable w →
  ∃ items,
    get_component T w = (items, None) ∧
    NoDup items.*1 ∧
    (∀ e, e ∈ items.*1 ↔ e ∈ type_entities w T) ∧
    (∀ e c, (e, c) ∈ items →
       component_for_entity e T w = Some c ∧ component_class c = T).
Proof.
  intros Hw. unfold get_component, type_entities.
  destruct (_components w !! T) as [s|] eqn:Hs.
  - destruct (get_component_loop_ok (_entities w) T (elements s))
      as (items & Hloop & Hfst & Hitems).
    { intros e He%elem_of_elements.
      apply (reachable_index_sound w Hw). by exists s. }
    exists items. split; [done|]. rewrite Hfst.
    split; [apply NoDup_elements|]. split.
    + intros e. apply elem_of_elements.
    + intros e c Hin. split; [by apply Hitems|].
      eapply reachable_well_classed; [done|]. by apply Hitems.
  - exists []. split; [done|]. split; [constructor|]. split.
    + intros e. cbn. set_solver.
    + by intros ? ? ?%elem_of_nil.
Qed.

Lemma get_component_yields_the_holders_witness :
  reachable world_1AB_2A ∧
  ∃ items,
    get_component "ComponentA" world_1AB_2A = (items, None) ∧
    NoDup items.*1 ∧
    (∀ e, e ∈ items.*1 ↔ e ∈ type_entities world_1AB_2A "ComponentA") ∧
    (∀ e c, (e, c) ∈ items →
       component_for_entity e "ComponentA" world_1AB_2A = Some c ∧
       component_class c = "ComponentA").
Proof.
  assert (reachable world_1AB_2A) as Hw.
  { exists heap0, [AddComponent 1 cA; AddComponent 1 cB; AddComponent 2 cA].
    reflexivity. }
  split; [exact Hw|].
  exact (get_component_yields_the_holders world_1AB_2A "ComponentA" Hw).
Defined.

(** ** get_components: what a consumed query leaves behind *)

(** The store the narrowing loop leaves is the store it was given with
    the entry of the first type replaced by the set it ends with, which is
    a subset of the set it started with.  This holds after a [KeyError]
    as well. *)
Lemma intersect_loop_shape first entities rest cs :
  cs !! first = Some entities →
  (intersect_loop first entities rest cs).1.2 =
    <[first := (intersect_loop first entities rest cs).1.1]> cs ∧
  (intersect_loop first entities rest cs).1.1 ⊆ entities.
Proof.
  revert entities cs. induction rest as [|ct rest IH]; intros entities cs Hfirst.
  - cbn. by rewrite insert_id.
  - cbn. destruct (cs !! ct) as [s|] eqn:Hct.
    + destruct (IH (entities ∩ s) (<[first := entities ∩ s]> cs)) as [Hcs Hsub].
      { by rewrite lookup_insert_eq. }
      rewrite insert_insert_eq in Hcs. split; [done|set_solver].
    + cbn. by rewrite insert_id.
Qed.



(** X12: whatever its outcome, a consumed query leaves [_entities], the
    processor list and the counter alone, adds and removes no key of
    [_components], adds no entity to any set, and changes no set but the
    one of the first requested type. *)
Theorem get_components_frame (w : World) (Ts : list ComponentType) :
  _entities (get_components Ts w).1 = _entities w ∧
  _processors (get_components Ts w).1 = _processors w ∧
  _next_entity_id (get_components Ts w).1 = _next_entity_id w ∧
  dom (_components (get_components Ts w).1) = dom (_components w) ∧
  (∀ T, type_entities (get_components Ts w).1 T ⊆ type_entities w T) ∧
  (∀ T, head Ts ≠ Some T →
        _components (get_components Ts w).1 !! T = _components w !! T).
Proof.
  unfold get_components. destruct Ts as [|first rest].
  { repeat (split; [done|]). done. }
  destruct (_components w !! first) as [entities|] eqn:Hfirst.
  2:{ repeat (split; [done|]). done. }
  destruct (intersect_loop_shape first entities rest (_components w) Hfirst) as [Hcs Hsub].
  destruct (intersect_loop first entities rest (_components w)) as [[E cs'] r].
  cbn [fst snd] in *. subst cs'.
  assert (_components (match r with
            | Some e => (set_components (<[first:=E]> (_components w)) w, ([], Some e))
            | None => (set_components (<[first:=E]> (_components w)) w,
                       get_components_yield (_entities w) (first :: rest) (elements E))
            end).1 = <[first:=E]> (_components w)) as Hcomp by (by destruct r).
  split; [by destruct r|]. split; [by destruct r|]. split; [by destruct r|].
  unfold type_entities. rewrite Hcomp. split; [|split].
  - rewrite dom_insert_L. apply elem_of_dom_2 in Hfirst. set_solver.
  - intros T. rewrite lookup_insert. case_decide as HT; [|done].
    subst T. by rewrite Hfirst.
  - intros T HT. rewrite lookup_insert_ne; [done|]. intros ->. by apply HT.
Qed.

Lemma get_components_single_yield entitydb T es :
  (∀ e, e ∈ es → is_Some (entitydb !! e ≫= (λ m, m !! T))) →
  get_components_yield entitydb [T] es =
    ((λ ec : EntityId * Component, (ec.1, [ec.2]))
       <$> (get_component_loop entitydb T es).1, None) ∧
  (get_component_loop entitydb T es).2 = None.
Proof.
  induction es as [|e es IH]; intros Hall; [done|].
  destruct IH as [Hyield Hloop]; [intros e' ?; apply Hall; by right|].
  destruct (Hall e) as [c Hc]; [by left|].
  cbn. rewrite Hc. destruct (entitydb !! e) as [m|]; [|done].
  cbn in Hc. rewrite Hyield. unfold component_list. cbn. rewrite Hc.
  by destruct (get_component_loop entitydb T es) as [items r].
Qed.

(** X13: whatever calls were made on a world, for a type that has an
    entry the query for that single type changes nothing and yields what
    [get_component] yields, each component in a list of its own. *)
Theorem get_components_of_one_type (w : World) (T : ComponentType) :
  reachable w → is_Some (_components w !! T) →
  get_components [T] w =
    (w, ((λ ec : EntityId * Component, (ec.1, [ec.2])) <$> (get_component T w).1, None)) ∧
  (get_component T w).2 = None.
Proof.
  intros Hw [s Hs]. unfold get_components, get_component. rewrite Hs. cbn.
  destruct (get_components_single_yield (_entities w) T (elements s)) as [-> ->].
  { intros e He%elem_of_elements. apply (reachable_index_sound w Hw). by exists s. }
  split; [|done]. f_equal. apply World_eta.
Qed.

Lemma get_components_of_one_type_witness :
  reachable world_1AB_2A ∧
  is_Some (_components world_1AB_2A !! "ComponentA") ∧
  get_components ["ComponentA"] world_1AB_2A =
    (world_1AB_2A,
     ((λ ec : EntityId * Component, (ec.1, [ec.2]))
        <$> (get_component "ComponentA" world_1AB_2A).1, None)) ∧
  (get_component "ComponentA" world_1AB_2A).2 = None.
Proof.
  assert (reachable world_1AB_2A) as Hw.
  { exists heap0, [AddComponent 1 cA; AddComponent 1 cB; AddComponent 2 cA].
    reflexivity. }
  assert (is_Some (_components world_1AB_2A !! "ComponentA")) as Hs
    by (vm_compute; eexists; reflexivity).
  split; [exact Hw|]. split; [exact Hs|].
  exact (get_components_of_one_type world_1AB_2A "ComponentA" Hw Hs).
Defined.

(** ** Processors: one [add_processor] call *)

(** X14: one [add_processor] call writes the priority and the world into
    the instance and leaves its class and all other instances alone; the
    list becomes the old list with the instance appended, sorted by
    descending priority, the processors of one priority in the order in
    which that list had them; the entity and component data are
    untouched. *)
Theorem add_processor_call (h : Heap) (w : World) (p : ProcessorRef) (prio : Z) :
  priority ((add_processor p prio h w).1 p) = prio ∧
  world ((add_processor p prio h w).1 p) = Some ThisWorld ∧
  processor_class ((add_processor p prio h w).1 p) = processor_class (h p) ∧
  (∀ q, q ≠ p → (add_processor p prio h w).1 q = h q) ∧
  _processors (add_processor p prio h w).2 ≡ₚ _processors w ++ [p] ∧
  descending (add_processor p prio h w).1 (_processors (add_processor p prio h w).2) ∧
  keeps_insertion_order (add_processor p prio h w).1 (_processors w ++ [p])
    (_processors (add_processor p prio h w).2) ∧
  _components (add_processor p prio h w).2 = _components w ∧
  _entities (add_processor p prio h w).2 = _entities w ∧
  _next_entity_id (add_processor p prio h w).2 = _next_entity_id w.
Proof.
  split; [by rewrite add_processor_priority, decide_True|].
  split; [cbn; unfold set_world; by rewrite decide_True|].
  split; [cbn; unfold set_world, set_priority; by rewrite !decide_True|].
  split.
  { intros q Hq. cbn. unfold set_world, set_priority. by rewrite !decide_False. }
  rewrite add_processor_processors.
  set (h' := (add_processor p prio h w).1).
  split; [apply sort_by_key_Permutation|].
  split.
  { eapply StronglySorted_impl; [|apply sort_by_key_sorted]. cbn. intros a b. lia. }
  split; [|done].
  intros k.
  rewrite (filter_ext_elem _ (λ a, - priority (h' a) = - k)) by (intros; lia).
  rewrite (sort_by_key_filter (λ q, - priority (h' q))).
  apply filter_ext_elem. intros; lia.
Qed.

(** ** Processors: [remove_processor] *)

Lemma list_remove_app_fresh a pre post :
  a ∉ pre → list_remove a (pre ++ a :: post) = pre ++ post.
Proof.
  induction pre as [|y pre IH]; intros Ha; cbn.
  - by rewrite decide_True.
  - apply not_elem_of_cons in Ha as [Hne Ha].
    rewrite decide_False by done. by rewrite IH.
Qed.

Lemma list_remove_sublist x l : sublist (list_remove x l) l.
Proof.
  induction l as [|y l IH]; cbn; [constructor|].
  case_decide; [by apply sublist_cons|by apply sublist_skip].
Qed.

Lemma elem_of_list_remove_ne q x l : q ∈ l → q ≠ x → q ∈ list_remove x l.
Proof.
  induction l as [|y l IH]; cbn; [done|].
  intros [->|Hin]%elem_of_cons Hne.
  - rewrite decide_False by done. by left.
  - case_decide; [done|]. right. by apply IH.
Qed.

(** From an index after which nothing has the type, the loop changes
    nothing. *)
Lemma remove_processor_loop_no_match_from fuel i ty h ps :
  (length ps ≤ fuel + i)%nat →
  (∀ k q, (i ≤ k)%nat → ps !! k = Some q → processor_class (h q) ≠ ty) →
  remove_processor_loop fuel i ty h ps = Some (h, ps).
Proof.
  revert i. induction fuel as [|fuel IH]; intros i Hlen Hno.
  - cbn. destruct (ps !! i) eqn:Hi; [|done].
    apply lookup_lt_Some in Hi. lia.
  - cbn. destruct (ps !! i) as [p|] eqn:Hi; [|done].
    rewrite decide_False by (by eapply (Hno i)).
    apply IH; [lia|]. intros k q ?. apply Hno. lia.
Qed.

Lemma remove_processor_loop_first_match ty h a pre post d :
  ∀ i fuel,
  (i + d = length pre)%nat →
  (length (pre ++ a :: post) ≤ fuel + i)%nat →
  (∀ q, q ∈ pre → processor_class (h q) ≠ ty) →
  processor_class (h a) = ty →
  (∀ q, q ∈ drop 1 post → processor_class (h q) ≠ ty) →
  remove_processor_loop fuel i ty h (pre ++ a :: post) =
    Some (set_world a None h, pre ++ post).
Proof.
  induction d as [|d IH]; intros i fuel Hi Hlen Hpre Ha Hpost.
  - assert (i = length pre) as -> by lia.
    destruct fuel as [|fuel]; [rewrite length_app in Hlen; cbn in Hlen; lia|].
    cbn. rewrite list_lookup_middle by done. rewrite decide_True by done.
    rewrite list_remove_app_fresh by (intros Hin; by apply (Hpre a)).
    apply remove_processor_loop_no_match_from.
    + rewrite !length_app in *. cbn in Hlen. lia.
    + intros k q Hk Hq.
      assert (processor_class (set_world a None h q) = processor_class (h q)) as ->
        by (unfold set_world; by case_decide; subst).
      apply Hpost. rewrite lookup_app_r in Hq by lia.
      apply list_elem_of_lookup. exists (k - length pre - 1)%nat.
      rewrite lookup_drop. rewrite <- Hq. f_equal. lia.
  - destruct fuel as [|fuel]; [rewrite length_app in Hlen; cbn in Hlen; lia|].
    cbn. destruct ((pre ++ a :: post) !! i) as [q|] eqn:Hq.
    2:{ apply lookup_ge_None in Hq. rewrite length_app in Hq. lia. }
    rewrite lookup_app_l in Hq by lia.
    rewrite decide_False by (apply Hpre; by eapply list_elem_of_lookup_2).
    apply IH; [lia|lia|done..].
Qed.

(** X15: [remove_processor] detaches and removes the first processor of
    the given type.  The processor that stood right after it is never
    examined: whether or not it has the type, it stays in the list as it
    is. *)
Theorem remove_processor_removes_first_match
    (h : Heap) (w : World) (ty : string) (a : ProcessorRef)
    (pre post : list ProcessorRef) :
  _processors w = pre ++ a :: post →
  (∀ q, q ∈ pre → processor_class (h q) ≠ ty) →
  processor_class (h a) = ty →
  (∀ q, q ∈ drop 1 post → processor_class (h q) ≠ ty) →
  remove_processor ty h w = Some (set_world a None h, set_processors (pre ++ post) w).
Proof.
  intros Hps Hpre Ha Hpost. unfold remove_processor. rewrite Hps.
  rewrite (remove_processor_loop_first_match ty h a pre post (length pre) 0);
    [done|lia|lia|done..].
Qed.

Lemma remove_processor_removes_first_match_witness :
  _processors two_processors_world = [] ++ 0%nat :: [1%nat] ∧
  (∀ q, q ∈ [] → processor_class (two_processors_heap q) ≠ "Processor") ∧
  processor_class (two_processors_heap 0%nat) = "Processor" ∧
  (∀ q, q ∈ drop 1 [1%nat] → processor_class (two_processors_heap q) ≠ "Processor") ∧
  remove_processor "Processor" two_processors_heap two_processors_world =
    Some (set_world 0%nat None two_processors_heap,
          set_processors ([] ++ [1%nat]) two_processors_world).
Proof.
  assert (_processors two_processors_world = [] ++ 0%nat :: [1%nat]) as Hps
    by (vm_compute; reflexivity).
  assert (∀ q : nat, q ∈ @nil nat →
            processor_class (two_processors_heap q) ≠ "Processor") as Hpre
    by (by intros q ?%elem_of_nil).
  assert (processor_class (two_processors_heap 0%nat) = "Processor") as Ha
    by (vm_compute; reflexivity).
  assert (∀ q : nat, q ∈ drop 1 [1%nat] →
            processor_class (two_processors_heap q) ≠ "Processor") as Hpost
    by (by intros q ?%elem_of_nil).
  split; [exact Hps|]. split; [exact Hpre|]. split; [exact Ha|]. split; [exact Hpost|].
  exact (remove_processor_removes_first_match two_processors_heap two_processors_world
           "Processor" 0%nat [] [1%nat] Hps Hpre Ha Hpost).
Defined.

Lemma remove_processor_loop_frame ty fuel :
  ∀ i h ps h' ps',
  remove_processor_loop fuel i ty h ps = Some (h', ps') →
  sublist ps' ps ∧
  (∀ q, q ∈ ps → processor_class (h q) ≠ ty → q ∈ ps') ∧
  (∀ q, processor_class (h q) ≠ ty → h' q = h q) ∧
  (∀ q, processor_class (h' q) = processor_class (h q) ∧
        priority (h' q) = priority (h q)).
Proof.
  induction fuel as [|fuel IH]; intros i h ps h' ps'; cbn.
  - destruct (ps !! i); [done|]. by intros [= <- <-].
  - destruct (ps !! i) as [p|] eqn:Hi; [|by intros [= <- <-]].
    case_decide as Hp; [|apply IH].
    intros (Hsub & Hkeep & Hheap & Hattr)%IH.
    assert (∀ q, processor_class (set_world p None h q) = processor_class (h q) ∧
                 priority (set_world p None h q) = priority (h q)) as Hset
      by (intros q; unfold set_world; by case_decide; subst).
    split; [etransitivity; [done|apply list_remove_sublist]|].
    split; [|split].
    + intros q Hq Hne. apply Hkeep.
      * apply elem_of_list_remove_ne; [done|]. intros ->. by apply Hne.
      * by rewrite (proj1 (Hset q)).
    + intros q Hne. rewrite Hheap by (by rewrite (proj1 (Hset q))).
      unfold set_world. rewrite decide_False; [done|]. intros ->. by apply Hne.
    + intros q. destruct (Hattr q) as [-> ->]. apply Hset.
Qed.

(** X16: [remove_processor] always returns.  The list it leaves is the
    old list with some processors taken out, none of them of another
    type; instances of another type are untouched, no instance changes
    class or priority, and the entity and component data are untouched. *)
Theorem remove_processor_frame (h : Heap) (w : World) (ty : string) :
  ∃ h' w',
    remove_processor ty h w = Some (h', w') ∧
    sublist (_processors w') (_processors w) ∧
    (∀ q, q ∈ _processors w → processor_class (h q) ≠ ty → q ∈ _processors w') ∧
    (∀ q, processor_class (h q) ≠ ty → h' q = h q) ∧
    (∀ q, processor_class (h' q) = processor_class (h q) ∧
          priority (h' q) = priority (h q)) ∧
    _components w' = _components w ∧ _entities w' = _entities w ∧
    _next_entity_id w' = _next_entity_id w.
Proof.
  destruct (remove_processor_total ty h w) as [[h' w'] Hr].
  exists h', w'. split; [done|].
  pose proof (remove_processor_db _ _ _ _ _ Hr) as (Hcs & Hes & Hid).
  unfold remove_processor in Hr.
  destruct (remove_processor_loop _ _ _ _ _) as [[h1 ps]|] eqn:Hloop; [|done].
  cbn in Hr. injection Hr as <- <-.
  apply remove_processor_loop_frame in Hloop as (Hsub & Hkeep & Hheap & Hattr).
  by repeat (split; [done|]).
Qed.

(** ** The identifiers of [create_entity] *)

Lemma exec_counter_same o m :
  o ≠ ClearDatabase → o ≠ CreateEntity →
  _next_entity_id (self (exec o m)) = _next_entity_id (self m).
Proof.
  intros Hclear Hcreate.
  destruct o as [|e|e c|e T| | | |Ts|p prio|ty|]; cbn [exec self]; try done.
  - unfold delete_entity.
    by destruct (delete_entity_loop _ _ _) as [cs [ex|]].
  - unfold get_components. destruct Ts as [|first rest]; [done|].
    destruct (_components (self m) !! first) as [s|]; [|done].
    by destruct (intersect_loop _ _ _ _) as [[s' cs] [ex|]].
  - destruct (remove_processor _ _ _) as [[h w]|] eqn:Hr; [|done].
    by apply remove_processor_db in Hr as (_ & _ & ?).
Qed.

(** X17: as long as [clear_database] is not called, the identifiers are
    consecutive: the calls of [create_entity] in a run return the numbers
    that follow the counter, one after the other, whatever other calls lie
    in between. *)
Theorem create_entity_ids_are_consecutive (os : list Op) (m : Machine) :
  ClearDatabase ∉ os →
  issued os m =
    seqZ (_next_entity_id (self m) + 1)
      (Z.of_nat (length (filter (λ o, o = CreateEntity) os))).
Proof.
  revert m. induction os as [|o os IH]; intros m Hos; [done|].
  apply not_elem_of_cons in Hos as [Ho Hos].
  rewrite filter_cons. destruct (decide (o = CreateEntity)) as [->|Hne].
  - cbn [issued length]. rewrite (IH _ Hos). cbn [exec self create_entity fst snd app].
    rewrite (seqZ_cons _ (Z.of_nat (S _))) by lia.
    f_equal. f_equal; lia.
  - assert (issued (o :: os) m = issued os (exec o m)) as -> by (by destruct o).
    rewrite (IH _ Hos), exec_counter_same; done.
Qed.

Lemma create_entity_ids_are_consecutive_witness :
  (ClearDatabase ∉ [CreateEntity; AddComponent 1 cA; CreateEntity; DeleteEntity 1; CreateEntity]) ∧
  issued [CreateEntity; AddComponent 1 cA; CreateEntity; DeleteEntity 1; CreateEntity]
    (mkMachine heap0 new_world) = [1; 2; 3].
Proof.
  assert (ClearDatabase ∉ [CreateEntity; AddComponent 1 cA; CreateEntity;
                           DeleteEntity 1; CreateEntity]) as Hno.
  { rewrite !not_elem_of_cons. repeat split; try discriminate. apply not_elem_of_nil. }
  split; [exact Hno|].
  rewrite (create_entity_ids_are_consecutive _ (mkMachine heap0 new_world) Hno).
  reflexivity.
Defined.

(** ** When a consumed query leaves the world as it was *)

Lemma get_components_unchanged_iff w first rest entities0 :
  _components w !! first = Some entities0 →
  (∀ T, T ∈ rest → is_Some (_components w !! T)) →
  (get_components (first :: rest) w).1 = w ↔
  ∀ T, T ∈ rest → entities0 ⊆ type_entities w T.
Proof.
  intros Hfirst Hknown.
  rewrite (get_components_known w first rest entities0 Hfirst Hknown). cbn [fst].
  split.
  - intros Heq T HT e He.
    assert (<[first := narrowed (_components w) entities0 rest]> (_components w) !! first
            = Some entities0) as Hlook.
    { rewrite <- Hfirst. f_equal.
      change (_components (set_components
                (<[first:=narrowed (_components w) entities0 rest]> (_components w)) w)
              = _components w).
      by rewrite Heq. }
    rewrite lookup_insert_eq in Hlook. injection Hlook as Hlook.
    rewrite <- Hlook in He. apply elem_of_narrowed in He as [_ He]. by apply He.
  - intros Hsub.
    assert (narrowed (_components w) entities0 rest = entities0) as ->.
    { apply set_eq. intros e. rewrite elem_of_narrowed. split; [by intros [? _]|].
      intros He. split; [done|]. intros T HT. by apply (Hsub T HT). }
    rewrite (insert_id _ _ _ Hfirst). unfold set_components. apply World_eta.
Qed.

(** X18: when every requested type has an entry, a consumed
    [get_components] leaves the world as it was if and only if every
    entity in the set of the first type is in the set of each of the other
    types. *)
Theorem get_components_leaves_world_intact_iff
    (w : World) (first : ComponentType) (rest : list ComponentType) :
  (∀ T, T ∈ first :: rest → is_Some (_components w !! T)) →
  (get_components (first :: rest) w).1 = w ↔
  ∀ T, T ∈ rest → type_entities w first ⊆ type_entities w T.
Proof.
  intros Hknown. destruct (Hknown first) as [entities0 Hfirst]; [by left|].
  rewrite (get_components_unchanged_iff w first rest entities0 Hfirst)
    by (intros T ?; apply Hknown; by right).
  unfold type_entities at 2. by rewrite Hfirst.
Qed.

Lemma get_components_leaves_world_intact_iff_witness :
  (∀ T, T ∈ ["ComponentB"; "ComponentA"] → is_Some (_components world_1AB_2A !! T)) ∧
  (get_components ["ComponentB"; "ComponentA"] world_1AB_2A).1 = world_1AB_2A.
Proof.
  assert (∀ T, T ∈ ["ComponentB"; "ComponentA"] →
               is_Some (_components world_1AB_2A !! T)) as Hknown.
  { apply both_types_known; vm_compute; eexists; reflexivity. }
  split; [exact Hknown|].
  apply (get_components_leaves_world_intact_iff world_1AB_2A
           "ComponentB" ["ComponentA"] Hknown).
  intros T HT%list_elem_of_singleton. subst T.
  assert (type_entities world_1AB_2A "ComponentB" = {[1]}) as ->
    by (vm_compute; reflexivity).
  assert (type_entities world_1AB_2A "ComponentA" = {[1; 2]}) as ->
    by (vm_compute; reflexivity).
  set_solver.
Defined.

(** ** The populated world of the tests *)

Lemma create_entities_round_unfold w :
  create_entities_round w =
    let a := _next_entity_id w + 1 in
    let b := a + 1 in
    add_component b cE (add_component b cD (add_component b cC
      (create_entity
         (add_component a cE (add_component a cD (add_component a cB
            (add_component a cA (create_entity w).1))))).1)).
Proof. reflexivity. Qed.

Lemma component_for_entity_create_entity w e T :
  component_for_entity e T (create_entity w).1 = component_for_entity e T w.
Proof. reflexivity. Qed.

Lemma decide_and_nested {A} (P Q : Prop) `{!Decision P, !Decision Q} (u v : A) :
  (if decide (P ∧ Q) then u else v) = if decide P then if decide Q then u else v else v.
Proof. repeat case_decide; naive_solver. Qed.

Lemma odd_double_plus_one k : Z.odd (2 * k + 1) = true.
Proof. apply Z.odd_spec. by exists k. Qed.

Lemma odd_double_plus_two k : Z.odd (2 * k + 1 + 1) = false.
Proof.
  rewrite <- Z.negb_even. apply negb_false_iff, Z.even_spec. exists (k + 1). lia.
Qed.

Lemma create_entities_round_spec w k :
  0 ≤ k → _next_entity_id w = 2 * k →
  (∀ e T, component_for_entity e T w = populated_component k e T) →
  _next_entity_id (create_entities_round w) = 2 * (k + 1) ∧
  ∀ e T, component_for_entity e T (create_entities_round w)
         = populated_component (k + 1) e T.
Proof.
  intros Hk Hn Hlook. rewrite create_entities_round_unfold. cbn zeta. split.
  - cbn. lia.
  - intros e T.
    rewrite !component_for_entity_add_component, component_for_entity_create_entity,
      !component_for_entity_add_component, component_for_entity_create_entity, Hlook.
    rewrite Hn. cbn [component_class cA cB cC cD cE].
    rewrite !decide_and_nested. unfold populated_component.
    destruct (decide (e = 2 * k + 1 + 1)) as [->|Hb].
    + rewrite odd_double_plus_two.
      repeat case_decide; first [congruence|lia].
    + destruct (decide (e = 2 * k + 1)) as [->|Ha].
      * rewrite odd_double_plus_one.
        repeat case_decide; first [congruence|lia].
      * destruct (decide (1 ≤ e ≤ 2 * k)).
        { by rewrite (decide_True (P := 1 ≤ e ≤ 2 * (k + 1))) by lia. }
        { by rewrite (decide_False (P := 1 ≤ e ≤ 2 * (k + 1))) by lia. }
Qed.

Lemma component_for_entity_new_world e T : component_for_entity e T new_world = None.
Proof.
  unfold component_for_entity.
  change (_entities new_world) with (∅ : gmap Z (gmap string Component)).
  by rewrite lookup_empty.
Qed.

Lemma create_entities_round_invariants w :
  I1 w → I2 w → I1 (create_entities_round w) ∧ I2 (create_entities_round w).
Proof.
  intros H1 H2. rewrite create_entities_round_unfold. cbn zeta.
  assert (∀ w', I1 w' → I1 (create_entity w').1) as Hc1
    by (intros w' ?; by apply (I1_ext w')).
  assert (∀ w', I2 w' → I2 (create_entity w').1) as Hc2 by (by intros w' ?).
  split.
  - do 3 apply I1_add_component. apply Hc1.
    do 4 apply I1_add_component. by apply Hc1.
  - do 3 apply I2_add_component. apply Hc2.
    do 4 apply I2_add_component. by apply Hc2.
Qed.

Lemma create_entities_rounds n :
  _next_entity_id (Nat.iter n create_entities_round new_world) = 2 * Z.of_nat n ∧
  (∀ e T, component_for_entity e T (Nat.iter n create_entities_round new_world)
          = populated_component (Z.of_nat n) e T) ∧
  I1 (Nat.iter n create_entities_round new_world) ∧
  I2 (Nat.iter n create_entities_round new_world).
Proof.
  induction n as [|n (Hn & Hlook & H1 & H2)].
  - split; [done|]. split; [|split; [apply I1_new_world|apply I2_new_world]].
    intros e T. unfold populated_component.
    rewrite decide_False by lia. apply component_for_entity_new_world.
  - cbn [Nat.iter].
    destruct (create_entities_round_spec _ (Z.of_nat n) (Zle_0_nat n) Hn Hlook) as [Hn' Hlook'].
    replace (Z.of_nat (S n)) with (Z.of_nat n + 1) by lia.
    split; [done|]. split; [done|]. by apply create_entities_round_invariants.
Qed.

Lemma type_entities_by_component w e T :
  I1 w → e ∈ type_entities w T ↔ is_Some (component_for_entity e T w).
Proof. intros Hw. rewrite elem_of_type_entities. apply Hw. Qed.

Lemma create_entities_spec (number : Z) :
  _next_entity_id (create_entities number new_world) = 2 * Z.max 0 (number / 2) ∧
  (∀ e T, component_for_entity e T (create_entities number new_world)
          = populated_component (Z.max 0 (number / 2)) e T) ∧
  (∀ e T, e ∈ type_entities (create_entities number new_world) T ↔
          is_Some (populated_component (Z.max 0 (number / 2)) e T)) ∧
  I1 (create_entities number new_world) ∧
  I2 (create_entities number new_world).
Proof.
  unfold create_entities.
  destruct (create_entities_rounds (Z.to_nat (number / 2))) as (Hn & Hlook & H1 & H2).
  replace (Z.of_nat (Z.to_nat (number / 2))) with (Z.max 0 (number / 2)) in * by lia.
  split; [done|]. split; [done|]. split; [|done].
  intros e T. by rewrite type_entities_by_component, Hlook.
Qed.

(** X19: [create_entities(world, number)] on a new world runs
    [number // 2] rounds (none for a negative number).  It leaves the
    counter at twice that; the entities are 1 to the counter, each odd
    one with an A, a B, a D and an E, each even one with a C, a D and an
    E, and nothing else; the sets of the types list exactly these
    entities; and the world satisfies [I1] and [I2]. *)
Theorem create_entities_populates (number : Z) :
  _next_entity_id (create_entities number new_world) = 2 * Z.max 0 (number / 2) ∧
  (∀ e T, component_for_entity e T (create_entities number new_world)
          = populated_component (Z.max 0 (number / 2)) e T) ∧
  (∀ e T, e ∈ type_entities (create_entities number new_world) T ↔
          is_Some (populated_component (Z.max 0 (number / 2)) e T)) ∧
  I1 (create_entities number new_world) ∧
  I2 (create_entities number new_world).
Proof. apply create_entities_spec. Qed.

Lemma populated_component_D k e :
  populated_component k e "ComponentD" = if decide (1 ≤ e ≤ 2 * k) then Some cD else None.
Proof. unfold populated_component. case_decide; [|done]. by destruct (Z.odd e). Qed.

Lemma populated_component_E k e :
  populated_component k e "ComponentE" = if decide (1 ≤ e ≤ 2 * k) then Some cE else None.
Proof. unfold populated_component. case_decide; [|done]. by destruct (Z.odd e). Qed.

Lemma populated_component_C k e :
  populated_component k e "ComponentC" =
    if decide (1 ≤ e ≤ 2 * k ∧ Z.even e = true) then Some cC else None.
Proof.
  unfold populated_component. rewrite <- Z.negb_odd.
  destruct (Z.odd e); repeat case_decide; naive_solver.
Qed.

Lemma get_components_on_intact_world w Ts :
  index_sound w → Ts ≠ [] →
  (∀ T, T ∈ Ts → is_Some (_components w !! T)) →
  (get_components Ts w).1 = w →
  ∃ items,
    get_components Ts w = (w, (items, None)) ∧
    NoDup items.*1 ∧
    (∀ e, e ∈ items.*1 ↔ ∀ T, T ∈ Ts → e ∈ type_entities w T) ∧
    (∀ e cs, (e, cs) ∈ items →
       Forall2 (λ T c, component_for_entity e T w = Some c) Ts cs).
Proof.
  intros Hw Hne Hknown Hintact.
  destruct (get_components_on_sound_index w Ts Hw Hne Hknown)
    as (items & Hitems & Hnd & Hin & Hcs).
  exists items. split; [|done].
  rewrite (surjective_pairing (get_components Ts w)). by rewrite Hintact, Hitems.
Qed.

Lemma type_entities_is_Some w e T :
  e ∈ type_entities w T → is_Some (_components w !! T).
Proof.
  unfold type_entities. destruct (_components w !! T); [by eexists|set_solver].
Qed.

Lemma is_Some_if_decide {A} (P : Prop) `{!Decision P} (x : A) :
  is_Some (if decide P then Some x else None) ↔ P.
Proof.
  case_decide as HP; split.
  - done.
  - intros _. by eexists.
  - intros [? ?]. done.
  - done.
Qed.

Lemma populated_types_known (number : Z) :
  2 ≤ number →
  ∀ T, T ∈ ["ComponentC"; "ComponentD"; "ComponentE"] →
       is_Some (_components (create_entities number new_world) !! T).
Proof.
  intros Hnum T HT.
  destruct (create_entities_spec number) as (_ & _ & Hmem & _).
  assert (1 ≤ number / 2) as Hk by (apply Z.div_le_lower_bound; lia).
  apply (type_entities_is_Some _ 2). apply Hmem.
  unfold populated_component. rewrite decide_True by lia. cbn.
  repeat (apply elem_of_cons in HT as [->|HT]; [by eexists|]).
  by apply elem_of_nil in HT.
Qed.

(** X20: the two queries of the tests on the populated world, for every
    [number] of at least 2.  Each leaves the world as it was and raises
    nothing.  The one for D and E yields every entity once, with its D and
    its E in this order; the one for C, D and E yields every even entity
    once, with its C, D and E in this order. *)
Theorem test_queries_on_populated_world (number : Z) :
  2 ≤ number →
  (∃ items,
     get_components ["ComponentD"; "ComponentE"] (create_entities number new_world)
       = (create_entities number new_world, (items, None)) ∧
     NoDup items.*1 ∧
     (∀ e, e ∈ items.*1 ↔ 1 ≤ e ≤ 2 * (number / 2)) ∧
     (∀ e cs, (e, cs) ∈ items → cs = [cD; cE])) ∧
  (∃ items,
     get_components ["ComponentC"; "ComponentD"; "ComponentE"]
         (create_entities number new_world)
       = (create_entities number new_world, (items, None)) ∧
     NoDup items.*1 ∧
     (∀ e, e ∈ items.*1 ↔ 1 ≤ e ≤ 2 * (number / 2) ∧ Z.even e = true) ∧
     (∀ e cs, (e, cs) ∈ items → cs = [cC; cD; cE])).
Proof.
  intros Hnum.
  assert (1 ≤ number / 2) as Hk by (apply Z.div_le_lower_bound; lia).
  destruct (create_entities_spec number) as (_ & Hlook & Hmem & H1 & _).
  replace (Z.max 0 (number / 2)) with (number / 2) in * by lia.
  set (w := create_entities number new_world) in *.
  pose proof (populated_types_known number Hnum) as Hknown. fold w in Hknown.
  assert (∀ e, e ∈ type_entities w "ComponentD" ↔ 1 ≤ e ≤ 2 * (number / 2)) as HD.
  { intros e. rewrite Hmem, populated_component_D. apply is_Some_if_decide. }
  assert (∀ e, e ∈ type_entities w "ComponentE" ↔ 1 ≤ e ≤ 2 * (number / 2)) as HE.
  { intros e. rewrite Hmem, populated_component_E. apply is_Some_if_decide. }
  assert (∀ e, e ∈ type_entities w "ComponentC" ↔
               1 ≤ e ≤ 2 * (number / 2) ∧ Z.even e = true) as HC.
  { intros e. rewrite Hmem, populated_component_C. apply is_Some_if_decide. }
  assert (∀ e c, component_for_entity e "ComponentD" w = Some c → c = cD) as HcD.
  { intros e c. rewrite Hlook, populated_component_D. case_decide; congruence. }
  assert (∀ e c, component_for_entity e "ComponentE" w = Some c → c = cE) as HcE.
  { intros e c. rewrite Hlook, populated_component_E. case_decide; congruence. }
  assert (∀ e c, component_for_entity e "ComponentC" w = Some c → c = cC) as HcC.
  { intros e c. rewrite Hlook, populated_component_C. case_decide; congruence. }
  split.
  - destruct (Hknown "ComponentD") as [sD HsD]; [set_solver|].
    destruct (get_components_on_intact_world w ["ComponentD"; "ComponentE"])
      as (items & Hget & Hnd & Hin & Hcs).
    + by apply I1_index_sound.
    + done.
    + intros T HT. apply Hknown. set_solver.
    + apply (get_components_unchanged_iff w "ComponentD" ["ComponentE"] sD HsD).
      * intros T HT. apply Hknown. set_solver.
      * intros T HT%list_elem_of_singleton e He. subst T.
        apply HE, HD. unfold type_entities. by rewrite HsD.
    + exists items. split; [done|]. split; [done|]. split.
      * intros e. rewrite Hin. split.
        { intros Hall. apply HD, Hall. by left. }
        { intros He T [->|[->|[]%elem_of_nil]%elem_of_cons]%elem_of_cons;
            [by apply HD|by apply HE]. }
      * intros e cs Hecs. apply Hcs in Hecs.
        apply Forall2_cons_inv_l in Hecs as (c1 & cs1 & Hc1 & Hecs & ->).
        apply Forall2_cons_inv_l in Hecs as (c2 & cs2 & Hc2 & Hecs & ->).
        apply Forall2_nil_inv_l in Hecs as ->.
        by rewrite (HcD _ _ Hc1), (HcE _ _ Hc2).
  - destruct (Hknown "ComponentC") as [sC HsC]; [set_solver|].
    destruct (get_components_on_intact_world w ["ComponentC"; "ComponentD"; "ComponentE"])
      as (items & Hget & Hnd & Hin & Hcs).
    + by apply I1_index_sound.
    + done.
    + done.
    + apply (get_components_unchanged_iff w "ComponentC"
               ["ComponentD"; "ComponentE"] sC HsC).
      * intros T HT. apply Hknown. set_solver.
      * intros T HT e He.
        assert (e ∈ type_entities w "ComponentC") as HeC
          by (unfold type_entities; by rewrite HsC).
        apply HC in HeC as [HeC _].
        apply elem_of_cons in HT as [->|HT]; [by apply HD|].
        apply list_elem_of_singleton in HT as ->. by apply HE.
    + exists items. split; [done|]. split; [done|]. split.
      * intros e. rewrite Hin. split.
        { intros Hall. apply HC, Hall. by left. }
        { intros [He Heven] T
            [->|[->|[->|[]%elem_of_nil]%elem_of_cons]%elem_of_cons]%elem_of_cons;
            [by apply HC|by apply HD|by apply HE]. }
      * intros e cs Hecs. apply Hcs in Hecs.
        apply Forall2_cons_inv_l in Hecs as (c1 & cs1 & Hc1 & Hecs & ->).
        apply Forall2_cons_inv_l in Hecs as (c2 & cs2 & Hc2 & Hecs & ->).
        apply Forall2_cons_inv_l in Hecs as (c3 & cs3 & Hc3 & Hecs & ->).
        apply Forall2_nil_inv_l in Hecs as ->.
        by rewrite (HcC _ _ Hc1), (HcD _ _ Hc2), (HcE _ _ Hc3).
Qed.

Lemma test_queries_on_populated_world_witness :
  2 ≤ 4 ∧
  (∃ items,
     get_components ["ComponentD"; "ComponentE"] (create_entities 4 new_world)
       = (create_entities 4 new_world, (items, None)) ∧
     NoDup items.*1 ∧
     (∀ e, e ∈ items.*1 ↔ 1 ≤ e ≤ 2 * (4 / 2)) ∧
     (∀ e cs, (e, cs) ∈ items → cs = [cD; cE])) ∧
  (∃ items,
     get_components ["ComponentC"; "ComponentD"; "ComponentE"]
         (create_entities 4 new_world)
       = (create_entities 4 new_world, (items, None)) ∧
     NoDup items.*1 ∧
     (∀ e, e ∈ items.*1 ↔ 1 ≤ e ≤ 2 * (4 / 2) ∧ Z.even e = true) ∧
     (∀ e cs, (e, cs) ∈ items → cs = [cC; cD; cE])).
Proof.
  assert (2 ≤ 4) as Hnum by lia.
  split; [exact Hnum|].
  exact (test_queries_on_populated_world 4 Hnum).
Defined.

(** * The query against what the entities hold *)

(** C1: the query does not always yield the entities that hold the
    requested types.  Entity 1 holds an A and a C, entity 2 a B.  Once
    the query for A and B has been consumed, the query for A and C yields
    nothing, though entity 1 still holds both.  And with entity 1 holding
    an A and entity 2 a B, once the query for A and B has been consumed
    and [delete_component(5, ComponentA)] has pruned the emptied set, the
    query for A raises [KeyError], though entity 1 still holds an A. *)
Theorem get_components_misses_holders_after_consumed_query :
  reachable world_1AC_2B_after_query ∧
  component_for_entity 1 "ComponentA" world_1AC_2B_after_query = Some cA ∧
  component_for_entity 1 "ComponentC" world_1AC_2B_after_query = Some cC ∧
  (get_components ["ComponentA"; "ComponentC"] world_1AC_2B_after_query).2 = ([], None) ∧
  reachable world_after_query_and_delete_component ∧
  component_for_entity 1 "ComponentA" world_after_query_and_delete_component = Some cA ∧
  (get_components ["ComponentA"] world_after_query_and_delete_component).2
    = ([], Some KeyError).
Proof.
  split.
  { by exists heap0, [AddComponent 1 cA; AddComponent 1 cC; AddComponent 2 cB;
                      GetComponents ["ComponentA"; "ComponentB"]]. }
  split; [vm_compute; reflexivity|]. split; [vm_compute; reflexivity|].
  split; [vm_compute; reflexivity|]. split.
  { by exists heap0, [AddComponent 1 cA; AddComponent 2 cB;
                      GetComponents ["ComponentA"; "ComponentB"];
                      DeleteComponent 5 "ComponentA"]. }
  split; vm_compute; reflexivity.
Qed.

(** C2 as stated fails: entity 1 holds an A and nothing holds a B.  The
    query for A and B raises [KeyError] at the lookup of B, before any
    narrowing: the world is as it was, and entity 1, which has no B, is
    still in the set stored for A. *)
Lemma get_components_raises_before_narrowing :
  component_for_entity 1 "ComponentB" (add_component 1 cA new_world) = None ∧
  get_components ["ComponentA"; "ComponentB"] (add_component 1 cA new_world)
    = (add_component 1 cA new_world, ([], Some KeyError)) ∧
  1 ∈ type_entities
        (get_components ["ComponentA"; "ComponentB"] (add_component 1 cA new_world)).1
        "ComponentA".
Proof.
  split; [vm_compute; reflexivity|].
  assert (get_components ["ComponentA"; "ComponentB"] (add_component 1 cA new_world)
          = (add_component 1 cA new_world, ([], Some KeyError))) as Hget
    by (vm_compute; reflexivity).
  split; [exact Hget|]. rewrite Hget. cbn [fst].
  assert (type_entities (add_component 1 cA new_world) "ComponentA" = {[1]}) as ->
    by (vm_compute; reflexivity).
  set_solver.
Qed.

(** X22: in a world that satisfies [I1], for every non-empty list of
    component types each held by some entity, consuming [get_components]
    raises nothing and yields each entity that holds all the types exactly
    once, and no other entity, each with the list of its components of
    the requested types, in the requested order. *)
Theorem get_components_in_consistent_world (w : World) (Ts : list ComponentType) :
  I1 w → Ts ≠ [] →
  (∀ T, T ∈ Ts → ∃ e, is_Some (component_for_entity e T w)) →
  ∃ items,
    (get_components Ts w).2 = (items, None) ∧
    NoDup items.*1 ∧
    (∀ e, e ∈ items.*1 ↔ ∀ T, T ∈ Ts → is_Some (component_for_entity e T w)) ∧
    (∀ e cs, (e, cs) ∈ items →
       Forall2 (λ T c, component_for_entity e T w = Some c) Ts cs).
Proof.
  intros Hw Hne Hheld.
  destruct (get_components_on_sound_index w Ts (I1_index_sound w Hw) Hne)
    as (items & Hget & Hnd & Hin & Hcs).
  { intros T HT. destruct (Hheld T HT) as [e He].
    apply (type_entities_is_Some w e). by apply type_entities_by_component. }
  exists items. split; [done|]. split; [done|]. split; [|done].
  intros e. rewrite Hin. split; intros Hall T HT.
  - apply type_entities_by_component; [done|]. by apply Hall.
  - apply type_entities_by_component; [done|]. by apply Hall.
Qed.

Lemma get_components_in_consistent_world_witness :
  I1 world_1AB_2A ∧
  ["ComponentA"; "ComponentB"] ≠ [] ∧
  (∀ T, T ∈ ["ComponentA"; "ComponentB"] →
        ∃ e, is_Some (component_for_entity e T world_1AB_2A)) ∧
  ∃ items,
    (get_components ["ComponentA"; "ComponentB"] world_1AB_2A).2 = (items, None) ∧
    NoDup items.*1 ∧
    (∀ e, e ∈ items.*1 ↔
       ∀ T, T ∈ ["ComponentA"; "ComponentB"] →
            is_Some (component_for_entity e T world_1AB_2A)) ∧
    (∀ e cs, (e, cs) ∈ items →
       Forall2 (λ T c, component_for_entity e T world_1AB_2A = Some c)
         ["ComponentA"; "ComponentB"] cs).
Proof.
  assert (I1 world_1AB_2A) as HI1
    by (do 3 apply I1_add_component; apply I1_new_world).
  assert (["ComponentA"; "ComponentB"] ≠ []) as Hne by discriminate.
  assert (∀ T, T ∈ ["ComponentA"; "ComponentB"] →
               ∃ e, is_Some (component_for_entity e T world_1AB_2A)) as Hheld.
  { intros T HT. exists 1.
    apply elem_of_cons in HT as [->|HT]; [vm_compute; eexists; reflexivity|].
    apply list_elem_of_singleton in HT as ->. vm_compute. eexists. reflexivity. }
  split; [exact HI1|]. split; [exact Hne|]. split; [exact Hheld|].
  exact (get_components_in_consistent_world world_1AB_2A
           ["ComponentA"; "ComponentB"] HI1 Hne Hheld).
Defined.

(** * [delete_entity] and the order of a dict's keys *)

Lemma discard_and_prune_lookup_eq e T s cs :
  discard_and_prune e T s cs !! T =
    if decide (s ∖ {[e]} = ∅) then None else Some (s ∖ {[e]}).
Proof.
  unfold discard_and_prune.
  case_decide; [apply lookup_delete_eq|apply lookup_insert_eq].
Qed.

(** When every visited type has an entry the loop raises nothing, and
    what it leaves under each type does not depend on the order of the
    visit. *)
Lemma delete_entity_loop_lookup e cts cs :
  NoDup cts → (∀ T, T ∈ cts → is_Some (cs !! T)) →
  (delete_entity_loop e cts cs).2 = None ∧
  ∀ T, (delete_entity_loop e cts cs).1 !! T =
       if decide (T ∈ cts)
       then s ← cs !! T; if decide (s ∖ {[e]} = ∅) then None else Some (s ∖ {[e]})
       else cs !! T.
Proof.
  revert cs. induction cts as [|x cts IH]; intros cs Hnd Hknown.
  - split; [done|]. intros T. rewrite decide_False; [done|apply not_elem_of_nil].
  - apply NoDup_cons in Hnd as [Hx Hnd].
    destruct (Hknown x) as [s Hs]; [by left|].
    cbn. rewrite Hs.
    destruct (IH (discard_and_prune e x s cs) Hnd) as [Hok Hlook].
    { intros T HT. rewrite discard_and_prune_lookup_ne; [|by intros ->].
      apply Hknown. by right. }
    split; [done|]. intros T. rewrite Hlook.
    destruct (decide (T = x)) as [->|Hne].
    + rewrite decide_False by done. rewrite decide_True by (by left).
      by rewrite discard_and_prune_lookup_eq, Hs.
    + rewrite discard_and_prune_lookup_ne by done.
      destruct (decide (T ∈ cts)) as [Hin|Hnotin].
      * by rewrite decide_True by (by right).
      * rewrite decide_False; [done|]. by intros [?|?]%elem_of_cons.
Qed.

Lemma delete_entity_loop_order e cts cts' cs :
  NoDup cts → NoDup cts' → (∀ T, T ∈ cts ↔ T ∈ cts') →
  (∀ T, T ∈ cts → is_Some (cs !! T)) →
  delete_entity_loop e cts cs = delete_entity_loop e cts' cs.
Proof.
  intros Hnd Hnd' Hsame Hknown.
  destruct (delete_entity_loop_lookup e cts cs Hnd Hknown) as [Hok Hlook].
  destruct (delete_entity_loop_lookup e cts' cs Hnd') as [Hok' Hlook'].
  { intros T HT. apply Hknown. by apply Hsame. }
  destruct (delete_entity_loop e cts cs) as [cs1 r1].
  destruct (delete_entity_loop e cts' cs) as [cs2 r2].
  cbn in *. subst r1 r2. f_equal. apply map_eq. intros T.
  rewrite Hlook, Hlook'.
  destruct (decide (T ∈ cts)) as [Hin|Hnotin].
  - by rewrite decide_True by (by apply Hsame).
  - rewrite decide_False; [done|]. intros ?. by apply Hnotin, Hsame.
Qed.

(** X23: when every type the entity holds has an entry in [_components]
    (as under [I1]), [delete_entity] raises nothing, and its result is the
    same in whatever order the entity's types are visited. *)
Theorem delete_entity_order_is_irrelevant
    (w : World) (e : EntityId) (cts : list ComponentType) :
  lists_component_types cts e w →
  (∀ T, has_component w e T → is_Some (_components w !! T)) →
  delete_entity_visiting cts e w = delete_entity e w ∧
  (delete_entity e w).2 = None.
Proof.
  intros [Hnd Hcts] Hknown.
  assert (∀ T, T ∈ cts → is_Some (_components w !! T)) as Hk
    by (intros T HT; by apply Hknown, Hcts).
  assert (delete_entity_loop e cts (_components w)
          = delete_entity_loop e (entity_component_types e w) (_components w)) as Heq.
  { apply delete_entity_loop_order;
      [done|apply entity_component_types_NoDup| |done].
    intros T. by rewrite Hcts, elem_of_entity_component_types. }
  unfold delete_entity_visiting, delete_entity. rewrite Heq. split; [done|].
  destruct (delete_entity_loop_lookup e cts (_components w) Hnd Hk) as [Hok _].
  rewrite Heq in Hok.
  by destruct (delete_entity_loop e (entity_component_types e w) (_components w))
    as [cs [ex|]].
Qed.

Lemma has_component_world_1AB_2A_1 T :
  has_component world_1AB_2A 1 T ↔ T = "ComponentA" ∨ T = "ComponentB".
Proof.
  rewrite has_component_alt.
  change (_entities world_1AB_2A)
    with (<[2 := <[component_class cA := cA]> ∅]>
            (<[1 := <["ComponentB" := cB]> (<["ComponentA" := cA]> ∅)]>
               (<[1 := <["ComponentA" := cA]> ∅]> ∅))
          : gmap Z (gmap string Component)).
  rewrite lookup_insert_ne by discriminate. rewrite lookup_insert_eq.
  split.
  - intros (m & [= <-] & Hm). rewrite lookup_insert in Hm.
    case_decide; [by right|]. rewrite lookup_insert in Hm.
    case_decide; [by left|]. rewrite lookup_empty in Hm. by destruct Hm.
  - intros HT. eexists. split; [done|]. destruct HT as [->| ->].
    + rewrite lookup_insert_ne by discriminate. rewrite lookup_insert_eq. by eexists.
    + rewrite lookup_insert_eq. by eexists.
Qed.

Lemma world_1AB_2A_types_of_1 (T1 T2 : ComponentType) :
  T1 ≠ T2 →
  (∀ T, T = "ComponentA" ∨ T = "ComponentB" ↔ T = T1 ∨ T = T2) →
  lists_component_types [T1; T2] 1 world_1AB_2A.
Proof.
  intros Hne Hsame. split.
  - apply NoDup_cons. split; [|apply NoDup_singleton].
    by intros Hin%list_elem_of_singleton.
  - intros T. rewrite has_component_world_1AB_2A_1, Hsame. set_solver.
Qed.

Lemma world_1AB_2A_types_B_A :
  lists_component_types ["ComponentB"; "ComponentA"] 1 world_1AB_2A.
Proof. apply world_1AB_2A_types_of_1; [discriminate|]. intros T. tauto. Qed.

Lemma world_1AB_2A_types_known T :
  has_component world_1AB_2A 1 T → is_Some (_components world_1AB_2A !! T).
Proof.
  assert (I1 world_1AB_2A) as HI1
    by (do 3 apply I1_add_component; apply I1_new_world).
  intros HT. apply HI1 in HT. destruct HT as (s & -> & _). by eexists.
Qed.

Lemma delete_entity_order_is_irrelevant_witness :
  lists_component_types ["ComponentB"; "ComponentA"] 1 world_1AB_2A ∧
  (∀ T, has_component world_1AB_2A 1 T → is_Some (_components world_1AB_2A !! T)) ∧
  delete_entity_visiting ["ComponentB"; "ComponentA"] 1 world_1AB_2A
    = delete_entity 1 world_1AB_2A ∧
  (delete_entity 1 world_1AB_2A).2 = None.
Proof.
  split; [exact world_1AB_2A_types_B_A|].
  split; [exact world_1AB_2A_types_known|].
  exact (delete_entity_order_is_irrelevant world_1AB_2A 1
           ["ComponentB"; "ComponentA"]
           world_1AB_2A_types_B_A world_1AB_2A_types_known).
Defined.

(** Whatever the order of the visit, and also when the loop raises, what
    the index lists is still there afterwards. *)
Lemma index_sound_delete_entity_visiting cts e w :
  lists_component_types cts e w →
  index_sound w → index_sound (delete_entity_visiting cts e w).1.
Proof.
  intros [_ Hcts] Hw e' T. unfold in_type_entities, delete_entity_visiting.
  rewrite has_component_alt.
  pose proof (delete_entity_loop_holds_mono e cts (_components w)) as Hmono.
  pose proof (delete_entity_loop_removes e cts (_components w)) as Hrem.
  destruct (delete_entity_loop e cts (_components w)) as [cs r].
  cbn [fst snd] in Hmono, Hrem.
  destruct r as [ex|]; cbn [fst _components _entities set_components set_entities].
  - intros Hin%Hmono%Hw. by apply has_component_alt.
  - intros Hin. apply has_component_delete. split; [by apply Hw, Hmono|].
    intros ->. apply (Hrem T); [done| |done].
    by apply Hcts, Hw, Hmono.
Qed.

Lemma well_classed_delete_entity_visiting cts e w :
  well_classed w → well_classed (delete_entity_visiting cts e w).1.
Proof.
  intros Hw e' T c. unfold component_for_entity, delete_entity_visiting.
  destruct (delete_entity_loop e cts (_components w)) as [cs [ex|]];
    cbn [fst _entities set_components set_entities].
  - apply Hw.
  - by apply (well_classed_delete e w).
Qed.

Lemma reachable_in_some_order w :
  reachable w → ∃ m, reachable_in_any_order m ∧ self m = w.
Proof.
  intros (h & os & ->). eexists. split; [|done].
  induction os as [|o os IH] using rev_ind.
  - constructor.
  - rewrite run_snoc. by constructor.
Qed.

(** X24: in whatever order [delete_entity] visits the types of an entity,
    in every state a world can reach every entity in the set of a type
    has a component of that type, and every stored instance is stored
    under its own class. *)
Theorem reachable_in_any_order_is_sound (m : Machine) :
  reachable_in_any_order m →
  (∀ e T, e ∈ type_entities (self m) T → is_Some (component_for_entity e T (self m))) ∧
  (∀ e T c, component_for_entity e T (self m) = Some c → component_class c = T).
Proof.
  intros Hm.
  assert (index_sound (self m) ∧ well_classed (self m)) as [Hs Hc].
  { induction Hm as [h|o m Hm [IHs IHc]|cts e m Hm [IHs IHc] Hcts].
    - split; [apply I1_index_sound, I1_new_world|apply well_classed_new_world].
    - split; [by apply exec_index_sound|by apply exec_well_classed].
    - split; [by apply index_sound_delete_entity_visiting
             |by apply well_classed_delete_entity_visiting]. }
  split; [|exact Hc].
  intros e T He. apply Hs. by apply elem_of_type_entities.
Qed.

Lemma reachable_in_any_order_is_sound_witness :
  reachable_in_any_order
    (mkMachine heap0
       (delete_entity_visiting ["ComponentB"; "ComponentA"] 1 world_1AB_2A).1) ∧
  (∀ e T,
     e ∈ type_entities
           (delete_entity_visiting ["ComponentB"; "ComponentA"] 1 world_1AB_2A).1 T →
     is_Some (component_for_entity e T
                (delete_entity_visiting ["ComponentB"; "ComponentA"] 1 world_1AB_2A).1)).
Proof.
  assert (reachable_in_any_order
            (mkMachine heap0
               (delete_entity_visiting ["ComponentB"; "ComponentA"] 1 world_1AB_2A).1))
    as Hm.
  { apply (reachable_delete_entity ["ComponentB"; "ComponentA"] 1
             (mkMachine heap0 world_1AB_2A)).
    - apply (reachable_exec (AddComponent 2 cA)
               (mkMachine heap0 (add_component 1 cB (add_component 1 cA new_world)))).
      apply (reachable_exec (AddComponent 1 cB)
               (mkMachine heap0 (add_component 1 cA new_world))).
      apply (reachable_exec (AddComponent 1 cA) (mkMachine heap0 new_world)).
      apply reachable_new.
    - exact world_1AB_2A_types_B_A. }
  split; [exact Hm|].
  exact (proj1 (reachable_in_any_order_is_sound _ Hm)).
Defined.

(** Where the order shows: [delete_entity(1)] raises [KeyError] at the
    lookup of A in either order, but visiting D first has discarded the
    entity from the set of D, and pruned it, before the exception. *)
Example delete_entity_raising_depends_on_order :
  (delete_entity_visiting ["ComponentD"; "ComponentA"] 1
     world_1DA_after_query_and_delete).2 = Some KeyError ∧
  _components (delete_entity_visiting ["ComponentD"; "ComponentA"] 1
                 world_1DA_after_query_and_delete).1 = ∅ ∧
  (delete_entity_visiting ["ComponentA"; "ComponentD"] 1
     world_1DA_after_query_and_delete).2 = Some KeyError ∧
  _components (delete_entity_visiting ["ComponentA"; "ComponentD"] 1
                 world_1DA_after_query_and_delete).1 = {["ComponentD" := {[1]}]}.
Proof. repeat split; vm_compute; reflexivity. Qed.
